(** * The OpenAPI-to-API-Gateway specification transformer

    A shallow embedding of
    [packages/open-api-gateway/src/construct/spec/api-gateway-integrations.ts]
    and of the option types it reads
    ([api-gateway-integrations-types.ts]), followed by the properties of the
    transform.

    JavaScript values are embedded as a small tree type; objects are
    association lists in property-enumeration order; thrown exceptions are an
    explicit error result threaded through a small monad. *)

From Stdlib Require Import String Ascii List ZArith DecimalString Bool Lia.
Import ListNotations.
Open Scope string_scope.

(** ** Thrown exceptions *)

(** The two kinds of exception this code can raise: [new Error(message)] and
    the engine's [TypeError] (reading a property of [undefined] or [null],
    [Object.entries] of a nullish value, [in] applied to a primitive).  The
    text of an engine [TypeError] is not modelled. *)
Inductive JsError : Type :=
| Error (message : string)
| TypeError.

Inductive result (A : Type) : Type :=
| Ok (a : A)
| Throw (e : JsError).
Arguments Ok {A} a.
Arguments Throw {A} e.

Definition bind {A B : Type} (m : result A) (k : A -> result B) : result B :=
  match m with
  | Ok a => k a
  | Throw e => Throw e
  end.

Notation "x <- m ;; k" := (bind m (fun x => k))
  (at level 61, m at next level, right associativity).

(** [Array.prototype.map] with a callback that may throw: elements are
    visited left to right and the first exception aborts the traversal. *)
Fixpoint mapM {A B : Type} (f : A -> result B) (l : list A) : result (list B) :=
  match l with
  | [] => Ok []
  | x :: l' => y <- f x ;; ys <- mapM f l' ;; Ok (y :: ys)
  end.

(** [Array.prototype.filter] with a predicate that may throw. *)
Fixpoint filterM {A : Type} (f : A -> result bool) (l : list A) : result (list A) :=
  match l with
  | [] => Ok []
  | x :: l' => b <- f x ;; r <- filterM f l' ;; Ok (if b then x :: r else r)
  end.

(** Two computations end the same way: both return, or both throw the same
    exception. *)
Definition same_outcome {A B : Type} (r1 : result A) (r2 : result B) : Prop :=
  match r1, r2 with
  | Ok _, Ok _ => True
  | Throw e1, Throw e2 => e1 = e2
  | _, _ => False
  end.

(** ** Objects as association lists *)

(** An object is the list of its own enumerable string-keyed properties, in
    the order [Object.entries] enumerates them.  A list with a repeated key
    denotes what [Object.fromEntries] makes of it: the last binding of a key
    is its value.  The properties every object inherits from
    [Object.prototype] are added where the code can meet them (see
    [has_property]); the engine's reordering of array-index-like keys is
    outside the model. *)
Section Objects.
Context {V : Type}.

(** [o[k]], [None] standing for an absent property. *)
Fixpoint obj_get (k : string) (o : list (string * V)) : option V :=
  match o with
  | [] => None
  | (k', v) :: o' =>
      match obj_get k o' with
      | Some w => Some w
      | None => if k' =? k then Some v else None
      end
  end.

(** [k in o], on own properties. *)
Definition obj_in (k : string) (o : list (string * V)) : bool :=
  existsb (fun e => fst e =? k) o.

(** The names every plain object inherits from [Object.prototype]. *)
Definition Object_prototype_names : list string :=
  [ "constructor"; "__defineGetter__"; "__defineSetter__"; "hasOwnProperty";
    "__lookupGetter__"; "__lookupSetter__"; "isPrototypeOf";
    "propertyIsEnumerable"; "toString"; "valueOf"; "__proto__";
    "toLocaleString" ].

Definition inherited (k : string) : bool :=
  existsb (String.eqb k) Object_prototype_names.

(** [k in o] for a plain object [o]: own and inherited properties. *)
Definition has_property (k : string) (o : list (string * V)) : bool :=
  obj_in k o || inherited k.

(** [o[k] = v]: an existing key keeps its position, a new key goes last. *)
Definition obj_set (k : string) (v : V) (o : list (string * V)) : list (string * V) :=
  if obj_in k o
  then map (fun e => if fst e =? k then (fst e, v) else e) o
  else o ++ [(k, v)].

(** [Object.assign(target, source)], the effect of spreading [source] into
    an object literal that so far holds [target]. *)
Definition obj_assign (target source : list (string * V)) : list (string * V) :=
  fold_left (fun o e => obj_set (fst e) (snd e) o) source target.

(** [Object.fromEntries(entries)]. *)
Definition fromEntries (entries : list (string * V)) : list (string * V) :=
  obj_assign [] entries.

(** The members of an object literal, [{ ...o, k: v, ... }], are evaluated
    and applied left to right. *)
Inductive member : Type :=
| KV (k : string) (v : V)
| Spread (o : list (string * V)).

Definition object_literal (members : list member) : list (string * V) :=
  fold_left (fun o m => match m with
                        | KV k v => obj_set k v o
                        | Spread s => obj_assign o s
                        end) members [].

(** What one member of an object literal says about property [k]. *)
Definition member_get (k : string) (m : member) : option V :=
  match m with
  | KV k' v => if k' =? k then Some v else None
  | Spread s => obj_get k s
  end.

Definition override (acc : option V) (x : option V) : option V :=
  match x with Some w => Some w | None => acc end.
End Objects.

(** ** JavaScript values *)

#[warnings="-register-all"]
Inductive Json : Type :=
| JUndefined
| JNull
| JBool (b : bool)
| JNum (n : Z)
| JStr (s : string)
| JArr (l : list Json)
| JObj (o : list (string * Json)).

Definition JsObject : Type := list (string * Json).

(** The double-quote character, for the JSON templates the transform emits. *)
Definition dquote : string := String (ascii_of_nat 34) EmptyString.

Definition index_key (i : nat) : string := NilZero.string_of_uint (Nat.to_uint i).

(** Own enumerable string-keyed properties of a value, as seen by
    [Object.entries] and by spread: an object's properties, an array's
    elements and a string's characters under their indices, nothing for the
    other primitives. *)
Definition own_entries (v : Json) : JsObject :=
  match v with
  | JObj o => o
  | JArr l => combine (map index_key (seq 0 (length l))) l
  | JStr s =>
      let cs := list_ascii_of_string s in
      combine (map index_key (seq 0 (length cs)))
              (map (fun c => JStr (String c EmptyString)) cs)
  | _ => []
  end.

(** [{ ...v }]: spreading [undefined] or [null] contributes nothing. *)
Definition js_spread (v : Json) : JsObject := own_entries v.

(** [Object.entries(v)] throws on [undefined] and [null]. *)
Definition Object_entries (v : Json) : result JsObject :=
  match v with
  | JUndefined | JNull => Throw TypeError
  | _ => Ok (own_entries v)
  end.

(** [o[k]] on an object held as a list. *)
Definition js_prop (o : JsObject) (k : string) : Json :=
  match obj_get k o with
  | Some v => v
  | None => JUndefined
  end.

(** [v[k]] / [v.k]: throws on [undefined] and [null]. *)
Definition js_member (v : Json) (k : string) : result Json :=
  match v with
  | JUndefined | JNull => Throw TypeError
  | JObj o => Ok (js_prop o k)
  | JArr l => Ok (if k =? "length" then JNum (Z.of_nat (length l))
                  else js_prop (own_entries v) k)
  | JStr s => Ok (if k =? "length" then JNum (Z.of_nat (String.length s))
                  else js_prop (own_entries v) k)
  | JBool _ | JNum _ => Ok JUndefined
  end.

(** [k in v], for a key [k] that names no inherited property (the one use
    is the method name [options]): throws unless [v] is an object (or
    array). *)
Definition js_in (k : string) (v : Json) : result bool :=
  match v with
  | JObj o => Ok (obj_in k o)
  | JArr l => Ok ((k =? "length") || obj_in k (own_entries v))
  | _ => Throw TypeError
  end.

(** Truthiness, as tested by [filter], [||] and the conditional operator. *)
Definition truthy (v : Json) : bool :=
  match v with
  | JUndefined | JNull => false
  | JBool b => b
  | JNum n => negb (n =? 0)%Z
  | JStr s => negb (s =? EmptyString)
  | JArr _ | JObj _ => true
  end.

(** [a ?? b] where [b] may itself be absent, and where it may not. *)
Definition orelse {A : Type} (a b : option A) : option A :=
  match a with
  | Some _ => a
  | None => b
  end.

Definition coalesce {A : Type} (a : option A) (b : A) : A :=
  match a with
  | Some x => x
  | None => b
  end.

(** String conversion of a possibly-[undefined] string, as performed by a
    template literal and by the left operand of [in] and a computed member
    access ([ToPropertyKey]). *)
Definition ToString (s : option string) : string :=
  match s with
  | Some x => x
  | None => "undefined"
  end.

Definition ToPropertyKey : option string -> string := ToString.

(** Embedding of a string-valued object into [Json]. *)
Definition json_of_strings (o : list (string * string)) : JsObject :=
  map (fun e => (fst e, JStr (snd e))) o.

(** Own property [k] of a value, [None] when it has none. *)
Definition field (k : string) (v : Json) : option Json :=
  obj_get k (own_entries v).

(** The value reached by following own properties from a value. *)
Fixpoint at_path (ks : list string) (v : Json) : option Json :=
  match ks with
  | [] => Some v
  | k :: ks' =>
      match field k v with
      | Some w => at_path ks' w
      | None => None
      end
  end.

(** [undefined] and [null], on which member access, destructuring and
    [Object.entries] throw. *)
Definition nullish (v : Json) : bool :=
  match v with
  | JUndefined | JNull => true
  | _ => false
  end.

(** An operation whose [responses] can be rewritten: the operation, its
    [responses] and every response are neither [undefined] nor [null]. *)
Definition well_shaped (operation : Json) : bool :=
  match js_member operation "responses" with
  | Ok responses =>
      negb (nullish responses)
      && forallb (fun e => negb (nullish (snd e))) (own_entries responses)
  | Throw _ => false
  end.

(** ** Option types ([api-gateway-integrations-types.ts]) *)

(** Structure to contain an API operation's method and path. *)
Record MethodAndPath : Type := {
  path : string;
  method : string
}.

(** The values of the [OpenAPIV3.HttpMethods] enum of openapi-types, in
    declaration order (the order of [Object.values]). *)
Definition HttpMethods : list string :=
  ["get"; "put"; "post"; "delete"; "options"; "head"; "patch"; "trace"].

Definition HttpMethods_OPTIONS : string := "options".

(** The values the transform does not look into: the opaque handles of the
    provisioning framework (the construct scope, a backend (lambda) function,
    an authorizer) and JavaScript numbers, which it only tests for
    truthiness and renders in template literals. *)
Class Handles : Type := {
  Construct : Type;
  IFunction : Type;
  Authorizer : Type;
  JsNumber : Type
}.

Section OptionTypes.
Context `{Handles}.

(** The fields of aws-cdk-lib's [CorsOptions] that the transform reads. *)
Record CorsOptions : Type := {
  allowOrigins : list string;
  allowHeaders : option (list string);
  allowMethods : option (list string);
  statusCode : option JsNumber
}.

(** Defines an integration for an individual API operation: the lambda
    function to service it and, optionally, its own authorizer (the two
    properties [applyMethodIntegration] destructures). *)
Record OpenApiIntegration : Type := {
  function : IFunction;
  authorizer : option Authorizer
}.

(** Options required alongside an Open API specification to create API
    Gateway resources, with the properties the transform reads. *)
Record OpenApiOptions : Type := {
  integrations : list (string * OpenApiIntegration);
  operationLookup : list (string * MethodAndPath);
  defaultAuthorizer : option Authorizer;
  corsOptions : option CorsOptions
}.

(** The same options under another CORS policy. *)
Definition with_cors (options : OpenApiOptions) (policy : CorsOptions)
  : OpenApiOptions :=
  {| integrations := integrations options;
     operationLookup := operationLookup options;
     defaultAuthorizer := defaultAuthorizer options;
     corsOptions := Some policy |}.

(** A lambda function with a label to identify it. *)
Record LabelledFunction : Type := {
  label : string;
  lf_function : IFunction
}.
End OptionTypes.

(** What the transform imports from outside the file: the sibling modules
    [../authorizers], [./api-gateway-auth] and [./utils], and the constants
    of aws-cdk-lib, together with what the engine does with a number.
    Their code is not part of the development; the transform is verified
    for every implementation of this interface.

    [functionInvocationUri_undefined] is what [functionInvocationUri] does
    when it is handed [undefined] instead of a function, which the guard of
    [applyMethodIntegration] lets happen: the uri it returns, or [None]
    when it throws a [TypeError].  [number_truthy] is the truthiness of a
    number (false for [0], [-0] and [NaN]), [number_to_string] its
    rendering in a template literal and [number_204] the number [204]. *)
Class Collaborators `{Handles} : Type := {
  Authorizers_none : Authorizer;
  authorizerId : Authorizer -> string;
  isCustomAuthorizer : Authorizer -> bool;
  customAuthorizerFunction : Authorizer -> IFunction;
  applyMethodAuthorizer : Authorizer -> JsObject;
  getAllAuthorizers : OpenApiOptions -> list Authorizer;
  prepareSecuritySchemes : Construct -> OpenApiOptions -> Json;
  concatMethodAndPath : MethodAndPath -> string;
  functionInvocationUri : Construct -> IFunction -> string;
  functionInvocationUri_undefined : Construct -> option string;
  number_truthy : JsNumber -> bool;
  number_to_string : JsNumber -> string;
  number_204 : JsNumber;
  number_204_to_string : number_to_string number_204 = "204";
  Cors_DEFAULT_HEADERS : list string;
  Cors_ALL_METHODS : list string;
  PassthroughBehavior_WHEN_NO_MATCH : string;
  ResponseType_BAD_REQUEST_BODY : string
}.

(** ** The transform ([api-gateway-integrations.ts]) *)

Section Transform.
Context `{Collaborators}.

Definition getCorsHeaderDefinitions : JsObject :=
  [ ("Access-Control-Allow-Origin", JObj [("schema", JObj [("type", JStr "string")])]);
    ("Access-Control-Allow-Methods", JObj [("schema", JObj [("type", JStr "string")])]);
    ("Access-Control-Allow-Headers", JObj [("schema", JObj [("type", JStr "string")])]) ].

(** [`'${list.join(",")}'`] *)
Definition quoted_join (l : list string) : string :=
  "'" ++ String.concat "," l ++ "'".

Definition generateCorsResponseHeaders (corsOptions : CorsOptions)
  : list (string * string) :=
  [ ("Access-Control-Allow-Headers",
      quoted_join (coalesce (allowHeaders corsOptions) Cors_DEFAULT_HEADERS));
    ("Access-Control-Allow-Methods",
      quoted_join (coalesce (allowMethods corsOptions) Cors_ALL_METHODS));
    ("Access-Control-Allow-Origin",
      quoted_join (allowOrigins corsOptions)) ].

Definition default_prefix : string := "method.response.header".

Definition generateCorsResponseParameters (corsOptions : CorsOptions)
    (prefix : string) : list (string * string) :=
  fromEntries
    (map (fun e => (prefix ++ "." ++ fst e, snd e))
         (generateCorsResponseHeaders corsOptions)).

(** [corsOptions.statusCode || 204]: an absent status code and a falsy one
    ([0], [-0], [NaN]) both give 204. *)
Definition effective_status (corsOptions : CorsOptions) : JsNumber :=
  match statusCode corsOptions with
  | Some n => if number_truthy n then n else number_204
  | None => number_204
  end.

(** The synthetic operation placed under the [options] key. *)
Definition corsOptionsOperation (corsOptions : CorsOptions) : JsObject :=
  let statusCode := effective_status corsOptions in
  [ ("summary", JStr "CORS Support");
    ("description", JStr "Enable CORS by returning the correct headers");
    ("responses", JObj
      [ (number_to_string statusCode, JObj
          [ ("description", JStr "Default response for CORS method");
            ("headers", JObj getCorsHeaderDefinitions);
            ("content", JObj []) ]) ]);
    ("x-amazon-apigateway-integration", JObj
      [ ("type", JStr "mock");
        ("requestTemplates", JObj
          [ ("application/json",
              JStr ("{" ++ dquote ++ "statusCode" ++ dquote ++ ": "
                        ++ number_to_string statusCode ++ "}")) ]);
        ("responses", JObj
          [ ("default", JObj
              [ ("statusCode", JStr (number_to_string statusCode));
                ("responseParameters",
                  JObj (json_of_strings
                          (generateCorsResponseParameters corsOptions default_prefix)));
                ("responseTemplates", JObj [("application/json", JStr "{}")]) ]) ]) ]) ].

(** Generates an "options" method with no auth to respond with the
    appropriate headers if cors is enabled. *)
Definition generateCorsOptionsMethod (pathItem : Json) (options : OpenApiOptions)
  : result JsObject :=
  defined <- js_in HttpMethods_OPTIONS pathItem ;;
  match defined, corsOptions options with
  | false, Some corsOptions =>
      Ok [ (HttpMethods_OPTIONS, JObj (corsOptionsOperation corsOptions)) ]
  | _, _ => Ok []
  end.

Definition missing_integration_message (operationName : option string)
    (method path : string) : string :=
  "Missing required integration for operation " ++ ToString operationName
    ++ " (" ++ method ++ " " ++ path ++ ")".

(** One entry of the rewritten [responses] map. *)
Definition rewriteResponse (corsOptions : option CorsOptions)
    (entry : string * Json) : result (string * Json) :=
  let (statusCode, response) := entry in
  headers <- js_member response "headers" ;;
  Ok (statusCode,
      JObj (object_literal
        [ Spread (js_spread response);
          KV "headers" (JObj (object_literal
            [ Spread (match corsOptions with
                      | Some _ => getCorsHeaderDefinitions
                      | None => []
                      end);
              Spread (js_spread headers) ])) ])).

Definition proxyIntegration (uri : string) : JsObject :=
  [ ("type", JStr "AWS_PROXY");
    ("httpMethod", JStr "POST");
    ("uri", JStr uri);
    ("passthroughBehavior", JStr PassthroughBehavior_WHEN_NO_MATCH) ].

(** [authorizer ?? defaultAuthorizer ?? Authorizers.none()]: prefer the
    integration level authorizer, otherwise use the default, or none if
    unspecified. *)
Definition methodAuthorizer (options : OpenApiOptions)
    (integration : OpenApiIntegration) : Authorizer :=
  coalesce (orelse (authorizer integration) (defaultAuthorizer options))
           Authorizers_none.

(** The object [applyMethodIntegration] returns, once the authorizer and
    the invocation uri are settled. *)
Definition composeOperation (options : OpenApiOptions) (operation : Json)
    (effective : Authorizer) (uri : string) : result Json :=
  responses <- js_member operation "responses" ;;
  entries <- Object_entries responses ;;
  rewritten <- mapM (rewriteResponse (corsOptions options)) entries ;;
  Ok (JObj (object_literal
    [ Spread (js_spread operation);
      KV "responses" (JObj (fromEntries rewritten));
      KV "x-amazon-apigateway-integration" (JObj (proxyIntegration uri));
      Spread (applyMethodAuthorizer effective) ])).

(** Adds API Gateway integrations and auth to the given operation.

    The guard is the [in] operator, which also finds the names the
    integrations object inherits.  For such a name without an entry of its
    own, [integrations[operationName]] is a member of [Object.prototype],
    which has neither an [authorizer] nor a [function] property: both
    destructured variables are [undefined]. *)
Definition applyMethodIntegration (scope : Construct) (path method : string)
    (options : OpenApiOptions) (operation : Json)
    (getOperationName : MethodAndPath -> option string) : result Json :=
  let operationName := getOperationName {| method := method; path := path |} in
  if negb (has_property (ToPropertyKey operationName) (integrations options)) then
    Throw (Error (missing_integration_message operationName method path))
  else
    match obj_get (ToPropertyKey operationName) (integrations options) with
    | Some integration =>
        composeOperation options operation (methodAuthorizer options integration)
          (functionInvocationUri scope (function integration))
    | None =>
        match functionInvocationUri_undefined scope with
        | Some uri =>
            composeOperation options operation
              (coalesce (orelse None (defaultAuthorizer options)) Authorizers_none)
              uri
        | None => Throw TypeError
        end
    end.

(** The predicate of [preparePathSpec]'s [filter]: [pathItem[method]] is
    truthy. *)
Definition definesMethod (pathItem : Json) (method : string) : result bool :=
  v <- js_member pathItem method ;; Ok (truthy v).

(** The callback of [preparePathSpec]'s [map]: the entry
    [[method, applyMethodIntegration(...)]]. *)
Definition composeMethod (scope : Construct) (path : string) (pathItem : Json)
    (options : OpenApiOptions) (getOperationName : MethodAndPath -> option string)
    (method : string) : result (string * Json) :=
  operation <- js_member pathItem method ;;
  operation' <- applyMethodIntegration scope path method options operation
                  getOperationName ;;
  Ok (method, operation').

(** Prepares a given api path by adding integrations, configuring auth. *)
Definition preparePathSpec (scope : Construct) (path : string) (pathItem : Json)
    (options : OpenApiOptions)
    (getOperationName : MethodAndPath -> option string) : result JsObject :=
  methods <- filterM (definesMethod pathItem) HttpMethods ;;
  composed <- mapM (composeMethod scope path pathItem options getOperationName)
                   methods ;;
  cors <- generateCorsOptionsMethod pathItem options ;;
  Ok (object_literal
        [ Spread (js_spread pathItem);
          Spread (fromEntries composed);
          Spread cors ]).

(** Return all lambda functions used as authorizers, labelled by
    authorizer id. *)
Definition getLabelledAuthorizerFunctions (options : OpenApiOptions)
  : list LabelledFunction :=
  map (fun authorizer =>
         {| label := authorizerId authorizer;
            lf_function := customAuthorizerFunction authorizer |})
      (filter isCustomAuthorizer (getAllAuthorizers options)).

(** Return all lambda functions used in integrations, labelled by
    operation. *)
Definition getLabelledIntegrationFunctions (options : OpenApiOptions)
  : list LabelledFunction :=
  map (fun e => {| label := fst e; lf_function := function (snd e) |})
      (integrations options).

(** Return all lambda functions that may be invoked by api gateway. *)
Definition getLabelledFunctions (options : OpenApiOptions) : list LabelledFunction :=
  getLabelledAuthorizerFunctions options ++ getLabelledIntegrationFunctions options.

(** Reverse lookup for the operation name given a method and path. *)
Definition operationNameByPath (options : OpenApiOptions) : list (string * string) :=
  fromEntries
    (map (fun e => (concatMethodAndPath (snd e), fst e)) (operationLookup options)).

Definition getOperationName (options : OpenApiOptions)
    (methodAndPath : MethodAndPath) : option string :=
  obj_get (concatMethodAndPath methodAndPath) (operationNameByPath options).

Definition requestValidators : JsObject :=
  [ ("all", JObj [ ("validateRequestBody", JBool true);
                   ("validateRequestParameters", JBool true) ]) ].

Definition gatewayResponses (options : OpenApiOptions) : JsObject :=
  [ (ResponseType_BAD_REQUEST_BODY, JObj (object_literal
      [ KV "statusCode" (JNum 400);
        KV "responseTemplates" (JObj
          [ ("application/json",
              JStr ("{" ++ dquote ++ "message" ++ dquote ++ ": " ++ dquote
                        ++ "$context.error.validationErrorString" ++ dquote ++ "}")) ]);
        Spread (match corsOptions options with
                | Some corsOptions =>
                    [ ("responseParameters",
                        JObj (json_of_strings
                                (generateCorsResponseParameters corsOptions
                                   "gatewayresponse.header"))) ]
                | None => []
                end) ])) ].

(** The callback of [prepareApiSpec]'s [map] over the paths: the entry
    [[path, preparePathSpec(...)]]. *)
Definition composePath (scope : Construct) (options : OpenApiOptions)
    (e : string * Json) : result (string * Json) :=
  pathItem' <- preparePathSpec scope (fst e) (snd e) options
                 (getOperationName options) ;;
  Ok (fst e, JObj pathItem').

(** Prepares the api spec for deployment by adding integrations,
    configuring auth, etc. *)
Definition prepareApiSpec (scope : Construct) (spec : JsObject)
    (options : OpenApiOptions) : result JsObject :=
  pathEntries <- Object_entries (js_prop spec "paths") ;;
  paths <- mapM (composePath scope options) pathEntries ;;
  Ok (object_literal
        [ Spread spec;
          KV "x-amazon-apigateway-request-validators" (JObj requestValidators);
          KV "x-amazon-apigateway-request-validator" (JStr "all");
          KV "x-amazon-apigateway-gateway-responses" (JObj (gatewayResponses options));
          KV "paths" (JObj (object_literal [ Spread (fromEntries paths) ]));
          KV "components" (JObj (object_literal
            [ Spread (js_spread (js_prop spec "components"));
              KV "securitySchemes" (prepareSecuritySchemes scope options) ])) ]).

(** *** Vocabulary of the properties *)

(** An operation of the document that the transform composes: a path of
    [spec.paths] and a recognised method under which the path item holds
    a truthy value. *)
Definition present (spec : JsObject) (path method : string) : Prop :=
  exists pathItem operation,
    In (path, pathItem) (own_entries (js_prop spec "paths")) /\
    In method HttpMethods /\
    js_member pathItem method = Ok operation /\
    truthy operation = true.

(** The identifier the reverse index resolves for an operation has no
    entry in the integrations mapping. *)
Definition lacks_integration (options : OpenApiOptions) (path method : string) : Prop :=
  obj_in (ToPropertyKey (getOperationName options {| method := method; path := path |}))
         (integrations options) = false.

(** An operation name that gets past the guard of [applyMethodIntegration]
    and to an invocation uri: the integrations have an entry of their own
    for it, or it is an inherited name and [functionInvocationUri] accepts
    [undefined]. *)
Definition reaches_composition (scope : Construct) (options : OpenApiOptions)
    (operationName : option string) : bool :=
  obj_in (ToPropertyKey operationName) (integrations options)
  || (inherited (ToPropertyKey operationName)
      && match functionInvocationUri_undefined scope with
         | Some _ => true
         | None => false
         end).
End Transform.

(** ** The website project ([AwsUiReactTsWebsiteProject])

    The constructor of the class computes, from the project options and
    the sample directories on disk, the files it hands to projen's
    [SampleDir].  The model covers those computations; the calls into
    projen are outside it. *)

(** The options of its own the project reads. *)
Record AwsUiReactTsWebsiteProjectOptions : Type := {
  applicationName : option string;
  publicDir : option string
}.

(** Node's [fs] as the constructor reads it ([readFileSync(path).toString()]
    for the second function), and [JSON.stringify]. *)
Class NodeFs : Type := {
  readdirSync : string -> result (list string);
  readFileSync : string -> result string;
  JSON_stringify : Json -> string
}.

(** [Array.prototype.reduce] with a callback that may throw. *)
Fixpoint reduceM {A B : Type} (f : B -> A -> result B) (l : list A) (init : B)
  : result B :=
  match l with
  | [] => Ok init
  | x :: l' => acc <- f init x ;; reduceM f l' acc
  end.

Fixpoint string_drop (n : nat) (s : string) : string :=
  match n, s with
  | O, _ => s
  | S n', String _ s' => string_drop n' s'
  | S _, EmptyString => EmptyString
  end.

(** The text before and after the first occurrence of [pattern] in [s]
    ([None] when it does not occur). *)
Fixpoint split_at_first (pattern s : string) : option (string * string) :=
  if prefix pattern s
  then Some (EmptyString, string_drop (String.length pattern) s)
  else match s with
       | EmptyString => None
       | String c s' =>
           match split_at_first pattern s' with
           | Some (before, after) => Some (String c before, after)
           | None => None
           end
       end.

(** The expansion of a replacement string for a string pattern (which has
    no captures): [$$] is a dollar sign, [$&] the matched text, [$`] the
    text before the match and [$'] the text after it; any other [$] stands
    for itself. *)
Fixpoint get_substitution (matched before after replacement : string) : string :=
  match replacement with
  | EmptyString => EmptyString
  | String c rest =>
      if Ascii.eqb c "$"
      then match rest with
           | String d rest' =>
               if Ascii.eqb d "$"
               then String "$" (get_substitution matched before after rest')
               else if Ascii.eqb d "&"
               then matched ++ get_substitution matched before after rest'
               else if Ascii.eqb d "`"
               then before ++ get_substitution matched before after rest'
               else if Ascii.eqb d "'"
               then after ++ get_substitution matched before after rest'
               else String c (get_substitution matched before after rest)
           | EmptyString => String c EmptyString
           end
      else String c (get_substitution matched before after rest)
  end.

(** [s.replace(pattern, replacement)] for a string pattern: the first
    occurrence only. *)
Definition js_replace (s pattern replacement : string) : string :=
  match split_at_first pattern s with
  | Some (before, after) =>
      before ++ get_substitution pattern before after replacement ++ after
  | None => s
  end.

(** No dollar sign occurs in the string. *)
Definition dollar_free (s : string) : bool :=
  forallb (fun c => negb (Ascii.eqb c "$")) (list_ascii_of_string s).

Section Website.
Context `{NodeFs}.

(** [path.resolve(__dirname, "../sample/src")] and
    [path.resolve(__dirname, "../sample/public")]. *)
Variables (srcDir publicDirPath : string).

(** [options.applicationName ?? "Sample App"] *)
Definition project_applicationName (options : AwsUiReactTsWebsiteProjectOptions)
  : string :=
  coalesce (applicationName options) "Sample App".

(** [options.publicDir ?? "public"] *)
Definition project_publicDir (options : AwsUiReactTsWebsiteProjectOptions) : string :=
  coalesce (publicDir options) "public".

(** The [files] of the source [SampleDir]: every file of the sample source
    directory but [config.json], over a generated [config.json]. *)
Definition sampleSourceFiles (options : AwsUiReactTsWebsiteProjectOptions)
  : result (list (string * string)) :=
  names <- readdirSync srcDir ;;
  files <- reduceM
             (fun prev curr =>
                content <- readFileSync (srcDir ++ "/" ++ curr) ;;
                Ok (object_literal [ Spread prev; KV curr content ]))
             (filter (fun f => negb (f =? "config.json")) names)
             [ ("config.json",
                 JSON_stringify
                   (JObj [("applicationName", JStr (project_applicationName options))])) ] ;;
  Ok (object_literal [ Spread files ]).

(** The [index.html] of the public [SampleDir]: the sample's, with the
    application name passed through to the title. *)
Definition sampleIndexHtml (options : AwsUiReactTsWebsiteProjectOptions)
  : result string :=
  html <- readFileSync (publicDirPath ++ "/index.html") ;;
  Ok (js_replace html "<title></title>"
        ("<title>" ++ project_applicationName options ++ "</title>")).
End Website.

(** ** A reference implementation of the collaborators

    The sibling modules are not part of this development.  The instance
    below follows their description in the specification and serves to run
    the transform on concrete documents. *)

Module Reference.

(** Modelled from the spec: the authorizer variants of [../authorizers]
    (None, IAM, Custom with its backend handle and authorizer
    identifier). *)
Inductive authorizer_variant : Type :=
| NoAuthorizer
| IamAuthorizer
| CustomAuthorizer (id : string) (handle : string).

(** The numbers the sample policies use. *)
Inductive sample_number : Type :=
| NotANumber
| Zero
| TwoHundred
| TwoHundredFour.

#[export] Instance handles : Handles :=
  {| Construct := unit; IFunction := string; Authorizer := authorizer_variant;
     JsNumber := sample_number |}.

Definition sample_truthy (n : sample_number) : bool :=
  match n with
  | NotANumber | Zero => false
  | TwoHundred | TwoHundredFour => true
  end.

Definition sample_to_string (n : sample_number) : string :=
  match n with
  | NotANumber => "NaN"
  | Zero => "0"
  | TwoHundred => "200"
  | TwoHundredFour => "204"
  end.

(** Modelled from the spec: the identifier labelling an authorizer. *)
Definition variant_id (a : authorizer_variant) : string :=
  match a with
  | NoAuthorizer => "none"
  | IamAuthorizer => "aws.auth.sigv4"
  | CustomAuthorizer id _ => id
  end.

(** Modelled from the spec: [isCustomAuthorizer] of
    [../authorizers/predicates]. *)
Definition is_custom (a : authorizer_variant) : bool :=
  match a with CustomAuthorizer _ _ => true | _ => false end.

(** Modelled from the spec: the backend handle of a Custom authorizer. *)
Definition custom_handle (a : authorizer_variant) : string :=
  match a with CustomAuthorizer _ h => h | _ => EmptyString end.

(** Modelled from the spec: [applyMethodAuthorizer] of
    [./api-gateway-auth], the security-requirement fragment of an
    authorizer: an AWS-SigV4 requirement for IAM, a named scheme reference
    for Custom, an explicit empty requirement for None. *)
Definition security_fragment (a : authorizer_variant) : JsObject :=
  match a with
  | NoAuthorizer => [("security", JArr [])]
  | _ => [("security", JArr [JObj [(variant_id a, JArr [])]])]
  end.

(** Modelled from the spec: each distinct authorizer identifier is kept
    once. *)
Fixpoint dedupe_by_id (seen : list string) (l : list authorizer_variant)
  : list authorizer_variant :=
  match l with
  | [] => []
  | a :: l' =>
      if existsb (String.eqb (variant_id a)) seen
      then dedupe_by_id seen l'
      else a :: dedupe_by_id (variant_id a :: seen) l'
  end.

(** Modelled from the spec: [getAllAuthorizers] of [./api-gateway-auth],
    the default authorizer and the integration-level ones, each distinct
    authorizer identifier once. *)
Definition all_authorizers (options : OpenApiOptions) : list authorizer_variant :=
  dedupe_by_id []
    (match defaultAuthorizer options with Some d => [d] | None => [] end
     ++ flat_map (fun e => match authorizer (snd e) with
                           | Some a => [a]
                           | None => []
                           end) (integrations options)).

(** Modelled from the spec: [prepareSecuritySchemes] of
    [./api-gateway-auth], one scheme definition per referenced Custom
    authorizer. *)
Definition security_schemes (scope : unit) (options : OpenApiOptions) : Json :=
  JObj (map (fun a => (variant_id a,
                       JObj [ ("type", JStr "apiKey");
                              ("x-amazon-apigateway-authtype", JStr "custom");
                              ("x-amazon-apigateway-authorizer",
                                JObj [("authorizerUri", JStr (custom_handle a))]) ]))
            (filter is_custom (all_authorizers options))).

(** Modelled from the spec: [concatMethodAndPath] of [./utils], a
    canonical concatenation of method and path compared by exact string
    equality. *)
Definition concat_method_and_path (mp : MethodAndPath) : string :=
  method mp ++ "||" ++ path mp.

(** Modelled from the spec: [functionInvocationUri] of [./utils], the
    invocation reference computed from a backend handle, which the sample
    handles render by interpolation (so that [undefined] in place of a
    handle is rendered as the text [undefined]). *)
Definition invocation_uri (scope : unit) (f : string) : string :=
  "arn:aws:apigateway:lambda:path/2015-03-31/functions/" ++ f ++ "/invocations".

(** The constants are those of aws-cdk-lib. *)
#[export] Instance collaborators : Collaborators :=
  {| Authorizers_none := NoAuthorizer;
     authorizerId := variant_id;
     isCustomAuthorizer := is_custom;
     customAuthorizerFunction := custom_handle;
     applyMethodAuthorizer := security_fragment;
     getAllAuthorizers := all_authorizers;
     prepareSecuritySchemes := security_schemes;
     concatMethodAndPath := concat_method_and_path;
     functionInvocationUri := invocation_uri;
     functionInvocationUri_undefined := fun scope => Some (invocation_uri scope "undefined");
     number_truthy := sample_truthy;
     number_to_string := sample_to_string;
     number_204 := TwoHundredFour;
     number_204_to_string := eq_refl;
     Cors_DEFAULT_HEADERS :=
       [ "Content-Type"; "X-Amz-Date"; "Authorization"; "X-Api-Key";
         "X-Amz-Security-Token"; "X-Amz-User-Agent" ];
     Cors_ALL_METHODS :=
       [ "OPTIONS"; "GET"; "PUT"; "POST"; "DELETE"; "PATCH"; "HEAD" ];
     PassthroughBehavior_WHEN_NO_MATCH := "WHEN_NO_MATCH";
     ResponseType_BAD_REQUEST_BODY := "BAD_REQUEST_BODY" |}.

(** *** Sample inputs *)

Definition scope : Construct := tt.

Definition hello_response : Json :=
  JObj [ ("description", JStr "ok");
         ("headers", JObj
           [ ("Access-Control-Allow-Origin", JObj [("description", JStr "mine")]);
             ("X-Request-Id", JObj [("schema", JObj [("type", JStr "string")])]) ]) ].

Definition hello_responses : Json := JObj [("200", hello_response)].

Definition sayHello : JsObject :=
  [ ("operationId", JStr "sayHello");
    ("responses", hello_responses) ].

Definition helloItem : JsObject :=
  [ ("parameters", JArr [JObj [("name", JStr "name"); ("in", JStr "query")]]);
    ("get", JObj sayHello) ].

Definition document : JsObject :=
  [ ("openapi", JStr "3.0.3");
    ("paths", JObj [("/hello", JObj helloItem)]) ].

Definition get_hello : MethodAndPath := {| path := "/hello"; method := "get" |}.

Definition any_origin : CorsOptions :=
  {| allowOrigins := ["*"]; allowHeaders := None; allowMethods := None;
     statusCode := None |}.

Definition hello_integration : OpenApiIntegration :=
  {| function := "helloFn"; authorizer := None |}.

Definition options : OpenApiOptions :=
  {| integrations := [("sayHello", hello_integration)];
     operationLookup := [("sayHello", get_hello)];
     defaultAuthorizer := Some IamAuthorizer;
     corsOptions := Some any_origin |}.

(** The operation is known to the lookup but has no integration. *)
Definition no_integrations : OpenApiOptions :=
  {| integrations := [];
     operationLookup := [("sayHello", get_hello)];
     defaultAuthorizer := None;
     corsOptions := None |}.

(** The operation goes by a name every object inherits, and has no
    integration. *)
Definition inherited_name : OpenApiOptions :=
  {| integrations := [];
     operationLookup := [("toString", get_hello)];
     defaultAuthorizer := None;
     corsOptions := None |}.

(** The operation is unknown to the lookup, and the integrations mapping
    has an entry under the key [undefined]. *)
Definition orphan_options : OpenApiOptions :=
  {| integrations := [("undefined", {| function := "fallbackFn"; authorizer := None |})];
     operationLookup := [];
     defaultAuthorizer := None;
     corsOptions := None |}.

(** Two identifiers for the same method and path. *)
Definition colliding_lookup : OpenApiOptions :=
  {| integrations := [("greet", {| function := "greetFn"; authorizer := None |})];
     operationLookup := [("sayHello", get_hello); ("greet", get_hello)];
     defaultAuthorizer := None;
     corsOptions := None |}.

(** Two operations served by one function. *)
Definition shared_function : OpenApiOptions :=
  {| integrations :=
       [ ("sayHello", {| function := "sharedFn"; authorizer := None |});
         ("sayGoodbye", {| function := "sharedFn"; authorizer := None |}) ];
     operationLookup :=
       [ ("sayHello", get_hello);
         ("sayGoodbye", {| path := "/goodbye"; method := "get" |}) ];
     defaultAuthorizer := None;
     corsOptions := None |}.


Definition no_origins : CorsOptions :=
  {| allowOrigins := []; allowHeaders := None; allowMethods := None;
     statusCode := None |}.
(** The sample options without a CORS policy or a default authorizer. *)
Definition plain_options : OpenApiOptions :=
  {| integrations := [("sayHello", hello_integration)];
     operationLookup := [("sayHello", get_hello)];
     defaultAuthorizer := None;
     corsOptions := None |}.

(** An operation that declares no responses. *)
Definition no_responses : Json := JObj [("operationId", JStr "sayHello")].

(** *** A sample disk *)

(** A stand-in for [JSON.stringify] that serialises the one shape the
    website project passes to it, for names that need no escaping. *)
Definition stringify_sample (v : Json) : string :=
  match v with
  | JObj [(k, JStr s)] =>
      "{" ++ dquote ++ k ++ dquote ++ ":" ++ dquote ++ s ++ dquote ++ "}"
  | _ => "null"
  end.

#[export] Instance disk : NodeFs :=
  {| readdirSync := fun _ => Ok ["App.tsx"; "config.json"];
     readFileSync := fun p =>
       if p =? "sample/public/index.html"
       then Ok "<head><title></title></head>"
       else Ok ("// " ++ p);
     JSON_stringify := stringify_sample |}.

Definition shop : AwsUiReactTsWebsiteProjectOptions :=
  {| applicationName := Some "Shop"; publicDir := None |}.
End Reference.

(** * Properties *)

(** ** Objects *)

Section ObjectFacts.
Context {V : Type}.
Implicit Types (o s t : list (string * V)) (k : string) (v : V).

Lemma obj_in_cons k k' v o :
  obj_in k ((k', v) :: o) = (k' =? k) || obj_in k o.
Proof. reflexivity. Qed.

Lemma obj_in_get k o :
  obj_in k o = match obj_get k o with Some _ => true | None => false end.
Proof.
  induction o as [|[k' v] o IH]; [reflexivity|].
  rewrite obj_in_cons, IH; simpl.
  destruct (obj_get k o); [apply orb_true_r|].
  now destruct (k' =? k).
Qed.

Lemma obj_in_false_get k o : obj_in k o = false <-> obj_get k o = None.
Proof.
  rewrite obj_in_get. destruct (obj_get k o); split; congruence.
Qed.

Lemma obj_in_true_get k o : obj_in k o = true <-> exists v, obj_get k o = Some v.
Proof.
  rewrite obj_in_get. destruct (obj_get k o) as [v|]; split; eauto.
  - discriminate.
  - intros [v Hv]; discriminate.
Qed.

Lemma obj_get_Some_in k o v : obj_get k o = Some v -> obj_in k o = true.
Proof. intros Hget. apply obj_in_true_get. eauto. Qed.

Lemma has_property_false k o :
  has_property k o = false <-> obj_in k o = false /\ inherited k = false.
Proof. unfold has_property. apply orb_false_iff. Qed.

Lemma has_property_own k o : obj_in k o = true -> has_property k o = true.
Proof. unfold has_property. now intros ->. Qed.

Lemma has_property_inherited k o : inherited k = true -> has_property k o = true.
Proof. unfold has_property. intros ->. apply orb_true_r. Qed.

Lemma obj_get_app k o s :
  obj_get k (o ++ s) =
  match obj_get k s with Some w => Some w | None => obj_get k o end.
Proof.
  induction o as [|[k' v] o IH]; simpl.
  - now destruct (obj_get k s).
  - rewrite IH. now destruct (obj_get k s).
Qed.

Lemma obj_get_replace_none k v o :
  obj_get k o = None ->
  obj_get k (map (fun e => if fst e =? k then (fst e, v) else e) o) = None.
Proof.
  induction o as [|[k' v'] o IH]; [reflexivity|]. simpl.
  destruct (obj_get k o); [discriminate|].
  destruct (k' =? k) eqn:E; [discriminate|]. intros _. simpl.
  rewrite IH by reflexivity. now rewrite E.
Qed.

Lemma obj_get_replace_eq k v o :
  obj_in k o = true ->
  obj_get k (map (fun e => if fst e =? k then (fst e, v) else e) o) = Some v.
Proof.
  induction o as [|[k' v'] o IH]; [discriminate|].
  rewrite obj_in_cons. simpl.
  destruct (obj_in k o) eqn:Hin.
  - intros _. rewrite IH by reflexivity. now destruct (k' =? k).
  - rewrite orb_false_r. intros Hk. rewrite Hk. simpl. rewrite Hk.
    apply obj_in_false_get in Hin.
    now rewrite (obj_get_replace_none k v o Hin).
Qed.

Lemma obj_get_replace_ne k k' v o :
  k <> k' ->
  obj_get k' (map (fun e => if fst e =? k then (fst e, v) else e) o) = obj_get k' o.
Proof.
  intros Hne. induction o as [|[k1 v1] o IH]; [reflexivity|].
  simpl. destruct (k1 =? k) eqn:E; simpl; rewrite IH; [|reflexivity].
  destruct (obj_get k' o); [reflexivity|].
  apply String.eqb_eq in E. subst k1.
  destruct (k =? k') eqn:E'; [|reflexivity].
  apply String.eqb_eq in E'. contradiction.
Qed.

(** Reading back a property just written. *)
Lemma obj_get_set_eq k v o : obj_get k (obj_set k v o) = Some v.
Proof.
  unfold obj_set. destruct (obj_in k o) eqn:Hin.
  - now apply obj_get_replace_eq.
  - rewrite obj_get_app. simpl. now rewrite String.eqb_refl.
Qed.

(** Writing a property leaves the others alone. *)
Lemma obj_get_set_ne k k' v o :
  k <> k' -> obj_get k' (obj_set k v o) = obj_get k' o.
Proof.
  intros Hne. unfold obj_set. destruct (obj_in k o).
  - now apply obj_get_replace_ne.
  - rewrite obj_get_app. simpl.
    destruct (k =? k') eqn:E; [|reflexivity].
    apply String.eqb_eq in E. contradiction.
Qed.

(** Spread: the source's properties win, the target's other properties
    stay. *)
Lemma obj_get_assign k t s :
  obj_get k (obj_assign t s) =
  match obj_get k s with Some w => Some w | None => obj_get k t end.
Proof.
  revert t. induction s as [|[k' v] s IH]; intros t; [reflexivity|].
  unfold obj_assign in *. simpl. rewrite IH.
  destruct (obj_get k s); [reflexivity|].
  destruct (k' =? k) eqn:E.
  - apply String.eqb_eq in E. subst. apply obj_get_set_eq.
  - apply String.eqb_neq in E. now apply obj_get_set_ne.
Qed.

Lemma obj_get_fromEntries k s : obj_get k (fromEntries s) = obj_get k s.
Proof.
  unfold fromEntries. rewrite obj_get_assign. now destruct (obj_get k s).
Qed.

Lemma obj_get_set k k' v o :
  obj_get k' (obj_set k v o) = if k =? k' then Some v else obj_get k' o.
Proof.
  destruct (k =? k') eqn:E.
  - apply String.eqb_eq in E. subst. apply obj_get_set_eq.
  - apply String.eqb_neq in E. now apply obj_get_set_ne.
Qed.

Lemma override_None_l (x : option V) : override None x = x.
Proof. now destruct x. Qed.

(** In an object literal the last member defining a property decides its
    value. *)
Lemma obj_get_object_literal k (ms : list (@member V)) :
  obj_get k (object_literal ms) =
  fold_left (fun acc m => override acc (member_get k m)) ms None.
Proof.
  unfold object_literal.
  change (@None V) with (obj_get k (@nil (string * V))).
  generalize (@nil (string * V)) as o.
  induction ms as [|m ms IH]; intros o; [reflexivity|].
  simpl. rewrite IH. f_equal.
  destruct m as [k' v|s]; simpl.
  - rewrite obj_get_set. now destruct (k' =? k).
  - apply obj_get_assign.
Qed.

Lemma obj_get_In k v o : obj_get k o = Some v -> In (k, v) o.
Proof.
  induction o as [|[k' v'] o IH]; [discriminate|]. simpl.
  destruct (obj_get k o).
  - intros Heq. right. now apply IH.
  - destruct (k' =? k) eqn:E; [|discriminate].
    apply String.eqb_eq in E. intros [= <-]. left. now subst.
Qed.

Lemma obj_in_In k v o : In (k, v) o -> obj_in k o = true.
Proof.
  intros Hin. unfold obj_in. apply existsb_exists.
  exists (k, v). split; [assumption|apply String.eqb_refl].
Qed.
End ObjectFacts.

(** ** The exception monad *)

Lemma bind_Ok_inv {A C : Type} (m : result A) (k : A -> result C) c :
  bind m k = Ok c -> exists a, m = Ok a /\ k a = Ok c.
Proof. destruct m; simpl; [eauto|discriminate]. Qed.

Lemma bind_Throw_inv {A C : Type} (m : result A) (k : A -> result C) e :
  bind m k = Throw e -> m = Throw e \/ exists a, m = Ok a /\ k a = Throw e.
Proof. destruct m; simpl; [eauto|]. intros [= ->]. now left. Qed.

Lemma same_outcome_bind {A A' C C' : Type} (m : result A) (m' : result A')
    (k : A -> result C) (k' : A' -> result C') :
  same_outcome m m' ->
  (forall a a', m = Ok a -> m' = Ok a' -> same_outcome (k a) (k' a')) ->
  same_outcome (bind m k) (bind m' k').
Proof.
  destruct m, m'; simpl; auto; contradiction.
Qed.

Lemma same_outcome_refl {A : Type} (m : result A) : same_outcome m m.
Proof. now destruct m. Qed.

Section MonadFacts.
Context {A B : Type}.

(** A successful traversal relates the two lists element by element. *)
Lemma mapM_Ok_Forall2 (f : A -> result B) l l' :
  mapM f l = Ok l' <-> Forall2 (fun x y => f x = Ok y) l l'.
Proof.
  revert l'. induction l as [|x l IH]; intros l'; simpl.
  - split; [intros [= <-]; constructor|now inversion 1].
  - split.
    + intros Hm. apply bind_Ok_inv in Hm as (y & Hy & Hm).
      apply bind_Ok_inv in Hm as (ys & Hys & [= <-]).
      constructor; [assumption|now apply IH].
    + inversion 1 as [|? y ? ys Hy Hys]; subst.
      rewrite Hy. simpl. apply IH in Hys. now rewrite Hys.
Qed.

(** An exception escaping a traversal was thrown at one of its elements. *)
Lemma mapM_Throw_inv (f : A -> result B) l e :
  mapM f l = Throw e -> exists x, In x l /\ f x = Throw e.
Proof.
  induction l as [|x l IH]; simpl; [discriminate|].
  intros Hm. apply bind_Throw_inv in Hm as [Hx | (y & Hy & Hm)].
  - exists x. auto.
  - apply bind_Throw_inv in Hm as [Hl | (ys & _ & Hm)]; [|discriminate].
    destruct (IH Hl) as (x' & Hin & Hx'). exists x'. auto.
Qed.

(** One throwing element makes the whole traversal throw. *)
Lemma mapM_In_Throw (f : A -> result B) l x e :
  In x l -> f x = Throw e -> exists e', mapM f l = Throw e'.
Proof.
  induction l as [|y l IH]; simpl; [contradiction|].
  intros [-> | Hin] Hx.
  - rewrite Hx. simpl. eauto.
  - destruct (f y); simpl; [|eauto].
    destruct (IH Hin Hx) as (e' & ->). simpl. eauto.
Qed.

Lemma same_outcome_mapM {B' : Type} (f : A -> result B) (g : A -> result B') l :
  (forall x, In x l -> same_outcome (f x) (g x)) ->
  same_outcome (mapM f l) (mapM g l).
Proof.
  induction l as [|x l IH]; intros Hfg; simpl; [exact I|].
  apply same_outcome_bind; [apply Hfg; now left|].
  intros y y' _ _. apply same_outcome_bind.
  - apply IH. intros z Hz. apply Hfg. now right.
  - intros; exact I.
Qed.
End MonadFacts.

Lemma filterM_Throw_inv {A : Type} (f : A -> result bool) l e :
  filterM f l = Throw e -> exists x, In x l /\ f x = Throw e.
Proof.
  induction l as [|x l IH]; simpl; [discriminate|].
  intros Hm. apply bind_Throw_inv in Hm as [Hx | (b & Hb & Hm)].
  - exists x. auto.
  - apply bind_Throw_inv in Hm as [Hl | (r & _ & Hm)]; [|discriminate].
    destruct (IH Hl) as (x' & Hin & Hx'). exists x'. auto.
Qed.

Lemma filterM_Ok_In {A : Type} (f : A -> result bool) l l' :
  filterM f l = Ok l' -> forall x, In x l' <-> In x l /\ f x = Ok true.
Proof.
  revert l'. induction l as [|y l IH]; simpl; intros l' Hm x.
  - injection Hm as <-. simpl. tauto.
  - apply bind_Ok_inv in Hm as (b & Hb & Hm).
    apply bind_Ok_inv in Hm as (r & Hr & [= <-]).
    specialize (IH r Hr x). destruct b; simpl; rewrite IH.
    + split.
      * intros [<- | [Hin Hx]]; auto.
      * intros [[<- | Hin] Hx]; auto.
    + split.
      * intros [Hin Hx]; auto.
      * intros [[<- | Hin] Hx]; [congruence|auto].
Qed.

(** ** Which exceptions the transform can raise *)

Lemma js_member_Throw v k e : js_member v k = Throw e -> e = TypeError.
Proof. destruct v; simpl; congruence. Qed.

Lemma Object_entries_Throw v e : Object_entries v = Throw e -> e = TypeError.
Proof. destruct v; simpl; congruence. Qed.

Lemma js_in_Throw k v e : js_in k v = Throw e -> e = TypeError.
Proof. destruct v; simpl; congruence. Qed.

Section TransformFacts.
Context `{Collaborators}.

Lemma rewriteResponse_Throw cors entry e :
  rewriteResponse cors entry = Throw e -> e = TypeError.
Proof.
  destruct entry as [statusCode response]. unfold rewriteResponse.
  intros Hr. apply bind_Throw_inv in Hr as [Hm | (h & _ & Hr)]; [|discriminate].
  now apply js_member_Throw in Hm.
Qed.

Lemma generateCorsOptionsMethod_Throw pathItem options e :
  generateCorsOptionsMethod pathItem options = Throw e -> e = TypeError.
Proof.
  unfold generateCorsOptionsMethod.
  intros Hg. apply bind_Throw_inv in Hg as [Hin | (b & _ & Hg)].
  - now apply js_in_Throw in Hin.
  - destruct b, (corsOptions options); discriminate.
Qed.

Lemma composeOperation_Throw options operation effective uri e :
  composeOperation options operation effective uri = Throw e -> e = TypeError.
Proof.
  unfold composeOperation. intros Ha.
  apply bind_Throw_inv in Ha as [Hm | (responses & _ & Ha)];
    [now apply js_member_Throw in Hm|].
  apply bind_Throw_inv in Ha as [Hm | (entries & _ & Ha)];
    [now apply Object_entries_Throw in Hm|].
  apply bind_Throw_inv in Ha as [Hm | (rewritten & _ & Ha)]; [|discriminate].
  apply mapM_Throw_inv in Hm as (entry & _ & Hm).
  now apply rewriteResponse_Throw in Hm.
Qed.

(** The guard at the head of [applyMethodIntegration]. *)
Lemma applyMethodIntegration_missing scope path method options operation gon :
  has_property (ToPropertyKey (gon {| method := method; path := path |}))
               (integrations options) = false ->
  applyMethodIntegration scope path method options operation gon =
  Throw (Error (missing_integration_message
                  (gon {| method := method; path := path |}) method path)).
Proof. intros Hin. unfold applyMethodIntegration. now rewrite Hin. Qed.

(** Past the guard, with an entry of the integrations' own. *)
Lemma applyMethodIntegration_own scope path method options operation gon integration :
  obj_get (ToPropertyKey (gon {| method := method; path := path |}))
          (integrations options) = Some integration ->
  applyMethodIntegration scope path method options operation gon =
  composeOperation options operation (methodAuthorizer options integration)
    (functionInvocationUri scope (function integration)).
Proof.
  intros Hget. unfold applyMethodIntegration.
  rewrite (has_property_own _ _ (obj_get_Some_in _ _ _ Hget)), Hget. reflexivity.
Qed.

(** Past the guard on an inherited name. *)
Lemma applyMethodIntegration_inherited scope path method options operation gon :
  obj_in (ToPropertyKey (gon {| method := method; path := path |}))
         (integrations options) = false ->
  inherited (ToPropertyKey (gon {| method := method; path := path |})) = true ->
  applyMethodIntegration scope path method options operation gon =
  match functionInvocationUri_undefined scope with
  | Some uri =>
      composeOperation options operation
        (coalesce (defaultAuthorizer options) Authorizers_none) uri
  | None => Throw TypeError
  end.
Proof.
  intros Hin Hinh. unfold applyMethodIntegration, has_property.
  rewrite Hin, Hinh. apply obj_in_false_get in Hin. rewrite Hin. reflexivity.
Qed.

(** [new Error] is raised by that guard only. *)
Lemma applyMethodIntegration_Error_inv scope path method options operation gon msg :
  applyMethodIntegration scope path method options operation gon = Throw (Error msg) ->
  has_property (ToPropertyKey (gon {| method := method; path := path |}))
               (integrations options) = false /\
  msg = missing_integration_message (gon {| method := method; path := path |}) method path.
Proof.
  unfold applyMethodIntegration.
  destruct (has_property _ (integrations options)) eqn:Hin; simpl.
  - destruct (obj_get _ (integrations options)) as [integration|].
    + intros Ha. apply composeOperation_Throw in Ha. discriminate.
    + destruct (functionInvocationUri_undefined scope); [|discriminate].
      intros Ha. apply composeOperation_Throw in Ha. discriminate.
  - intros [= <-]. auto.
Qed.

Lemma definesMethod_true pathItem method :
  definesMethod pathItem method = Ok true <->
  exists operation, js_member pathItem method = Ok operation /\ truthy operation = true.
Proof.
  unfold definesMethod. split.
  - intros Hd. apply bind_Ok_inv in Hd as (v & Hv & [= Ht]). eauto.
  - intros (v & -> & Ht). simpl. now rewrite Ht.
Qed.

Lemma preparePathSpec_unfold scope path pathItem options gon :
  preparePathSpec scope path pathItem options gon =
  (methods <- filterM (definesMethod pathItem) HttpMethods ;;
   composed <- mapM (composeMethod scope path pathItem options gon) methods ;;
   cors <- generateCorsOptionsMethod pathItem options ;;
   Ok (object_literal
         [ Spread (js_spread pathItem);
           Spread (fromEntries composed);
           Spread cors ])).
Proof. reflexivity. Qed.

Lemma preparePathSpec_Error_inv scope path pathItem options gon msg :
  preparePathSpec scope path pathItem options gon = Throw (Error msg) ->
  exists method operation,
    In method HttpMethods /\
    js_member pathItem method = Ok operation /\
    truthy operation = true /\
    applyMethodIntegration scope path method options operation gon = Throw (Error msg).
Proof.
  rewrite preparePathSpec_unfold. intros Hp.
  apply bind_Throw_inv in Hp as [Hf | (methods & Hf & Hp)].
  { apply filterM_Throw_inv in Hf as (m & _ & Hm).
    apply bind_Throw_inv in Hm as [Hm | (v & _ & Hm)]; [|discriminate].
    apply js_member_Throw in Hm. discriminate. }
  apply bind_Throw_inv in Hp as [Hm | (composed & _ & Hp)].
  - apply mapM_Throw_inv in Hm as (m & Hin & Hm).
    apply (filterM_Ok_In _ _ _ Hf) in Hin as [Hin Hd].
    apply definesMethod_true in Hd as (operation & Hop & Ht).
    unfold composeMethod in Hm. rewrite Hop in Hm. simpl in Hm.
    apply bind_Throw_inv in Hm as [Hm | (op' & _ & Hm)]; [|discriminate].
    exists m, operation. auto.
  - apply bind_Throw_inv in Hp as [Hg | (cors & _ & Hp)]; [|discriminate].
    apply generateCorsOptionsMethod_Throw in Hg. discriminate.
Qed.

Lemma preparePathSpec_throws scope path pathItem options gon method operation e :
  In method HttpMethods ->
  js_member pathItem method = Ok operation ->
  truthy operation = true ->
  applyMethodIntegration scope path method options operation gon = Throw e ->
  exists e', preparePathSpec scope path pathItem options gon = Throw e'.
Proof.
  intros Hin Hop Ht Ha. rewrite preparePathSpec_unfold.
  destruct (filterM (definesMethod pathItem) HttpMethods) as [methods|e0] eqn:Hf;
    simpl; [|eauto].
  assert (Hm : In method methods).
  { apply (filterM_Ok_In _ _ _ Hf). split; [assumption|].
    apply definesMethod_true. eauto. }
  destruct (mapM_In_Throw (composeMethod scope path pathItem options gon)
              methods method e Hm) as (e' & ->); simpl; [|eauto].
  unfold composeMethod. rewrite Hop. simpl. now rewrite Ha.
Qed.

Lemma prepareApiSpec_unfold scope spec options :
  prepareApiSpec scope spec options =
  (pathEntries <- Object_entries (js_prop spec "paths") ;;
   paths <- mapM (composePath scope options) pathEntries ;;
   Ok (object_literal
        [ Spread spec;
          KV "x-amazon-apigateway-request-validators" (JObj requestValidators);
          KV "x-amazon-apigateway-request-validator" (JStr "all");
          KV "x-amazon-apigateway-gateway-responses" (JObj (gatewayResponses options));
          KV "paths" (JObj (object_literal [ Spread (fromEntries paths) ]));
          KV "components" (JObj (object_literal
            [ Spread (js_spread (js_prop spec "components"));
              KV "securitySchemes" (prepareSecuritySchemes scope options) ])) ])).
Proof. reflexivity. Qed.

Lemma Object_entries_Ok v es : Object_entries v = Ok es -> es = own_entries v.
Proof. destruct v; simpl; congruence. Qed.

Lemma prepareApiSpec_Error_inv scope spec options msg :
  prepareApiSpec scope spec options = Throw (Error msg) ->
  exists path pathItem,
    In (path, pathItem) (own_entries (js_prop spec "paths")) /\
    preparePathSpec scope path pathItem options (getOperationName options)
      = Throw (Error msg).
Proof.
  rewrite prepareApiSpec_unfold. intros Hp.
  apply bind_Throw_inv in Hp as [He | (entries & He & Hp)];
    [apply Object_entries_Throw in He; discriminate|].
  apply Object_entries_Ok in He. subst entries.
  apply bind_Throw_inv in Hp as [Hm | (paths & _ & Hp)]; [|discriminate].
  apply mapM_Throw_inv in Hm as ([path pathItem] & Hin & Hm).
  unfold composePath in Hm. simpl in Hm.
  apply bind_Throw_inv in Hm as [Hm | (pi' & _ & Hm)]; [|discriminate].
  eauto.
Qed.

Lemma prepareApiSpec_throws scope spec options path pathItem e :
  In (path, pathItem) (own_entries (js_prop spec "paths")) ->
  preparePathSpec scope path pathItem options (getOperationName options) = Throw e ->
  exists e', prepareApiSpec scope spec options = Throw e'.
Proof.
  intros Hin Hp. rewrite prepareApiSpec_unfold.
  destruct (Object_entries (js_prop spec "paths")) as [entries|e0] eqn:He;
    simpl; [|eauto].
  apply Object_entries_Ok in He. subst entries.
  destruct (mapM_In_Throw (composePath scope options) _ (path, pathItem) e Hin)
    as (e' & ->); simpl; [|eauto].
  unfold composePath. simpl. now rewrite Hp.
Qed.

(** Every [Error] the transform throws is the missing-integration message
    of an operation of the document whose identifier has no integration. *)
Lemma prepareApiSpec_Error_provenance scope spec options msg :
  prepareApiSpec scope spec options = Throw (Error msg) ->
  exists path method,
    present spec path method /\ lacks_integration options path method /\
    msg = missing_integration_message
            (getOperationName options {| method := method; path := path |})
            method path.
Proof.
  intros Hp.
  apply prepareApiSpec_Error_inv in Hp as (p' & pi' & Hin' & Hp).
  apply preparePathSpec_Error_inv in Hp as (m' & op' & Hm' & Hop' & Ht' & Hp).
  apply applyMethodIntegration_Error_inv in Hp as [Hl ->].
  apply has_property_false in Hl as [Hl _].
  exists p', m'. repeat split; [|assumption].
  exists pi', op'. auto.
Qed.

(** C1: the missing-integration guard is the [in] operator, which finds
    own and inherited properties alike.  For an operation of the document
    whose resolved identifier has no entry in [integrations]:
    when the identifier is not a name every object inherits, its
    composition throws
    [Missing required integration for operation <id> (<method> <path>)]
    and the transform as a whole throws instead of returning a document;
    when the identifier is such a name ([toString], [constructor], ...),
    the guard lets it pass, no [Error] is thrown for it, and its
    composition goes on with an [undefined] function and authorizer: a
    [TypeError] when [functionInvocationUri] rejects [undefined], else the
    operation bound to the uri computed from [undefined] under the default
    authorizer.
    Every [Error] the transform throws is the message above for an
    operation of the document lacking an integration, so when one
    operation only lacks its integration the message names exactly that
    one. *)
Theorem missing_integration_guard scope spec options path pathItem method operation :
  In (path, pathItem) (own_entries (js_prop spec "paths")) ->
  In method HttpMethods ->
  js_member pathItem method = Ok operation ->
  truthy operation = true ->
  obj_in (ToPropertyKey (getOperationName options {| method := method; path := path |}))
         (integrations options) = false ->
  (inherited (ToPropertyKey (getOperationName options
                               {| method := method; path := path |})) = false ->
   applyMethodIntegration scope path method options operation (getOperationName options)
     = Throw (Error ("Missing required integration for operation "
                       ++ ToString (getOperationName options
                                      {| method := method; path := path |})
                       ++ " (" ++ method ++ " " ++ path ++ ")"))
   /\ (exists e, prepareApiSpec scope spec options = Throw e))
  /\ (inherited (ToPropertyKey (getOperationName options
                                  {| method := method; path := path |})) = true ->
      applyMethodIntegration scope path method options operation
          (getOperationName options)
        = match functionInvocationUri_undefined scope with
          | Some uri =>
              composeOperation options operation
                (coalesce (defaultAuthorizer options) Authorizers_none) uri
          | None => Throw TypeError
          end
      /\ (forall msg,
            applyMethodIntegration scope path method options operation
                (getOperationName options) <> Throw (Error msg)))
  /\ (forall msg, prepareApiSpec scope spec options = Throw (Error msg) ->
        exists path' method',
          present spec path' method' /\ lacks_integration options path' method' /\
          msg = "Missing required integration for operation "
                  ++ ToString (getOperationName options
                                 {| method := method'; path := path' |})
                  ++ " (" ++ method' ++ " " ++ path' ++ ")")
  /\ ((forall path' method',
         present spec path' method' -> lacks_integration options path' method' ->
         path' = path /\ method' = method) ->
      forall msg, prepareApiSpec scope spec options = Throw (Error msg) ->
        msg = "Missing required integration for operation "
                ++ ToString (getOperationName options
                               {| method := method; path := path |})
                ++ " (" ++ method ++ " " ++ path ++ ")").
Proof.
  intros Hin Hm Hop Ht Hown.
  pose proof (prepareApiSpec_Error_provenance scope spec options) as Hprov.
  split; [|split; [|split]].
  - intros Hinh.
    assert (Hmissing : has_property
              (ToPropertyKey (getOperationName options
                                {| method := method; path := path |}))
              (integrations options) = false)
      by (apply has_property_false; auto).
    pose proof (applyMethodIntegration_missing scope path method options operation
                  (getOperationName options) Hmissing) as Ha.
    split; [exact Ha|].
    destruct (preparePathSpec_throws scope path pathItem options
                (getOperationName options) method operation _ Hm Hop Ht Ha) as (e' & Hp).
    exact (prepareApiSpec_throws scope spec options path pathItem e' Hin Hp).
  - intros Hinh. split.
    + exact (applyMethodIntegration_inherited scope path method options operation
               (getOperationName options) Hown Hinh).
    + intros msg Ha. apply applyMethodIntegration_Error_inv in Ha as [Ha _].
      rewrite (has_property_inherited _ _ Hinh) in Ha. discriminate.
  - exact Hprov.
  - intros Honly msg Hp.
    destruct (Hprov msg Hp) as (p' & m' & Hpres & Hl & ->).
    destruct (Honly p' m' Hpres Hl) as [-> ->]. reflexivity.
Qed.
End TransformFacts.

(** ** Composition of one operation *)

(** A traversal whose callback keeps each entry's key maps the value held
    under a key to the rewritten value held under the same key. *)
Lemma mapM_obj_get_None (f : string * Json -> result (string * Json)) l l' k :
  (forall e e', f e = Ok e' -> fst e' = fst e) ->
  mapM f l = Ok l' ->
  obj_get k l = None -> obj_get k l' = None.
Proof.
  intros Hkey Hm. apply mapM_Ok_Forall2 in Hm.
  induction Hm as [|[k0 v0] [k0' v0'] l l' Hf _ IH]; [reflexivity|].
  apply Hkey in Hf. simpl in Hf. subst k0'. simpl.
  destruct (obj_get k l); [discriminate|]. rewrite IH by reflexivity.
  now destruct (k0 =? k).
Qed.

Lemma mapM_obj_get_Some (f : string * Json -> result (string * Json)) l l' k v :
  (forall e e', f e = Ok e' -> fst e' = fst e) ->
  mapM f l = Ok l' ->
  obj_get k l = Some v ->
  exists v', f (k, v) = Ok (k, v') /\ obj_get k l' = Some v'.
Proof.
  intros Hkey Hm. pose proof Hm as Hm'. apply mapM_Ok_Forall2 in Hm'.
  clear Hm. induction Hm' as [|[k0 v0] [k0' v0'] l l' Hf Hall IH]; [discriminate|].
  pose proof (Hkey _ _ Hf) as Hk. simpl in Hk. subst k0'. simpl.
  destruct (obj_get k l) as [w|] eqn:Hl.
  - intros [= ->]. destruct (IH eq_refl) as (v' & Hv' & Hg).
    exists v'. now rewrite Hg.
  - destruct (k0 =? k) eqn:E; [|discriminate].
    apply String.eqb_eq in E. subst k0. intros [= ->].
    exists v0'. split; [assumption|].
    apply mapM_Ok_Forall2 in Hall.
    now rewrite (mapM_obj_get_None f l l' k Hkey Hall Hl).
Qed.

Section Composition.
Context `{Collaborators}.

Lemma rewriteResponse_Ok_inv cors statusCode response e' :
  rewriteResponse cors (statusCode, response) = Ok e' ->
  exists headers,
    js_member response "headers" = Ok headers /\
    e' = (statusCode,
          JObj (object_literal
            [ Spread (js_spread response);
              KV "headers" (JObj (object_literal
                [ Spread (match cors with
                          | Some _ => getCorsHeaderDefinitions
                          | None => []
                          end);
                  Spread (js_spread headers) ])) ])).
Proof.
  unfold rewriteResponse. intros Hr.
  apply bind_Ok_inv in Hr as (headers & Hh & [= <-]). eauto.
Qed.

Lemma rewriteResponse_key cors e e' :
  rewriteResponse cors e = Ok e' -> fst e' = fst e.
Proof.
  destruct e as [statusCode response]. intros Hr.
  apply rewriteResponse_Ok_inv in Hr as (headers & _ & ->). reflexivity.
Qed.

Lemma composeOperation_Ok_inv options operation effective uri op' :
  composeOperation options operation effective uri = Ok op' ->
  exists responses rewritten,
    js_member operation "responses" = Ok responses /\
    mapM (rewriteResponse (corsOptions options)) (own_entries responses) = Ok rewritten /\
    op' = JObj (object_literal
            [ Spread (js_spread operation);
              KV "responses" (JObj (fromEntries rewritten));
              KV "x-amazon-apigateway-integration" (JObj (proxyIntegration uri));
              Spread (applyMethodAuthorizer effective) ]).
Proof.
  unfold composeOperation. intros Ha.
  apply bind_Ok_inv in Ha as (responses & Hr & Ha).
  apply bind_Ok_inv in Ha as (entries & He & Ha).
  apply bind_Ok_inv in Ha as (rewritten & Hm & [= <-]).
  apply Object_entries_Ok in He. subst entries.
  exists responses, rewritten. auto.
Qed.

(** The shape of a successful composition: the authorizer and the uri are
    those of the integration's own entry when there is one, and those of
    an [undefined] authorizer and function otherwise. *)
Lemma applyMethodIntegration_Ok_inv scope path method options operation gon op' :
  applyMethodIntegration scope path method options operation gon = Ok op' ->
  exists effective uri responses rewritten,
    (forall integration,
        obj_get (ToPropertyKey (gon {| method := method; path := path |}))
                (integrations options) = Some integration ->
        effective = methodAuthorizer options integration /\
        uri = functionInvocationUri scope (function integration)) /\
    (obj_get (ToPropertyKey (gon {| method := method; path := path |}))
             (integrations options) = None ->
        effective = coalesce (defaultAuthorizer options) Authorizers_none /\
        functionInvocationUri_undefined scope = Some uri /\
        inherited (ToPropertyKey (gon {| method := method; path := path |})) = true) /\
    js_member operation "responses" = Ok responses /\
    mapM (rewriteResponse (corsOptions options)) (own_entries responses) = Ok rewritten /\
    op' = JObj (object_literal
            [ Spread (js_spread operation);
              KV "responses" (JObj (fromEntries rewritten));
              KV "x-amazon-apigateway-integration" (JObj (proxyIntegration uri));
              Spread (applyMethodAuthorizer effective) ]).
Proof.
  unfold applyMethodIntegration, has_property.
  destruct (obj_in _ (integrations options)) eqn:Hin.
  - apply obj_in_true_get in Hin as (integration & Hget). rewrite Hget.
    cbn [orb negb]. intros Ha.
    apply composeOperation_Ok_inv in Ha as (responses & rewritten & Hr & Hm & ->).
    exists (methodAuthorizer options integration),
           (functionInvocationUri scope (function integration)), responses, rewritten.
    split; [|split; [discriminate|auto]].
    intros integration' [= <-]. auto.
  - apply obj_in_false_get in Hin. rewrite Hin. cbn [orb].
    destruct (inherited _) eqn:Hinh; cbn [negb]; [|discriminate].
    destruct (functionInvocationUri_undefined scope) as [uri|] eqn:Hu; [|discriminate].
    intros Ha.
    apply composeOperation_Ok_inv in Ha as (responses & rewritten & Hr & Hm & ->).
    exists (coalesce (defaultAuthorizer options) Authorizers_none), uri,
           responses, rewritten.
    split; [|auto]. intros integration' [=].
Qed.

Lemma cors_definition_absent name :
  ~ In name [ "Access-Control-Allow-Origin"; "Access-Control-Allow-Methods";
              "Access-Control-Allow-Headers" ] ->
  obj_get name getCorsHeaderDefinitions = None.
Proof.
  intros Hn. cbn [In] in Hn. unfold getCorsHeaderDefinitions. cbn [obj_get].
  destruct (String.eqb_spec "Access-Control-Allow-Headers" name); [tauto|].
  destruct (String.eqb_spec "Access-Control-Allow-Methods" name); [tauto|].
  destruct (String.eqb_spec "Access-Control-Allow-Origin" name); [tauto|].
  reflexivity.
Qed.

Lemma cors_definition_present name :
  In name [ "Access-Control-Allow-Origin"; "Access-Control-Allow-Methods";
            "Access-Control-Allow-Headers" ] ->
  obj_get name getCorsHeaderDefinitions
    = Some (JObj [("schema", JObj [("type", JStr "string")])]).
Proof.
  simpl. intros [<- | [<- | [<- | []]]]; reflexivity.
Qed.

(** C2: with CORS enabled, in every response of a composed operation the
    headers are the author's headers plus the CORS header definitions the
    author did not define: a header the author defined keeps its
    definition, a CORS header name the author left out gets the CORS
    definition, and no other header appears.  (The security fragment is
    taken not to carry a [responses] property.) *)
Theorem cors_header_merge_is_additive
    scope path method options operation gon co op' responses statusCode response :
  corsOptions options = Some co ->
  (forall a, obj_get "responses" (applyMethodAuthorizer a) = None) ->
  applyMethodIntegration scope path method options operation gon = Ok op' ->
  js_member operation "responses" = Ok responses ->
  field statusCode responses = Some response ->
  exists authored merged,
    js_member response "headers" = Ok authored /\
    at_path ["responses"; statusCode; "headers"] op' = Some (JObj merged) /\
    (forall name definition,
        field name authored = Some definition ->
        obj_get name merged = Some definition) /\
    (forall name,
        field name authored = None ->
        In name [ "Access-Control-Allow-Origin"; "Access-Control-Allow-Methods";
                  "Access-Control-Allow-Headers" ] ->
        obj_get name merged = Some (JObj [("schema", JObj [("type", JStr "string")])])) /\
    (forall name,
        field name authored = None ->
        ~ In name [ "Access-Control-Allow-Origin"; "Access-Control-Allow-Methods";
                    "Access-Control-Allow-Headers" ] ->
        obj_get name merged = None).
Proof.
  intros Hcors Hfrag Ha Hresp Hentry.
  apply applyMethodIntegration_Ok_inv in Ha
    as (effective & uri & responses' & rewritten & _ & _ & Hresp' & Hm & ->).
  rewrite Hresp in Hresp'. injection Hresp' as <-.
  rewrite Hcors in Hm.
  destruct (mapM_obj_get_Some _ _ _ _ _ (rewriteResponse_key (Some co)) Hm Hentry)
    as (response' & Hr & Hget).
  apply rewriteResponse_Ok_inv in Hr as (authored & Hauth & [= ->]).
  exists authored.
  eexists. split; [exact Hauth|]. split.
  - unfold at_path, field at 1. simpl own_entries.
    rewrite obj_get_object_literal. simpl. rewrite (Hfrag _). simpl.
    unfold field at 1. simpl own_entries.
    rewrite obj_get_fromEntries, Hget.
    unfold field. simpl own_entries.
    rewrite obj_get_object_literal. simpl. reflexivity.
  - repeat split.
    + intros name definition Hdef. rewrite obj_get_object_literal.
      cbn [fold_left member_get]. unfold field, js_spread in *. now rewrite Hdef.
    + intros name Habsent Hname. rewrite obj_get_object_literal.
      cbn [fold_left member_get]. unfold field, js_spread in *.
      rewrite Habsent. cbn [override]. rewrite override_None_l.
      now apply cors_definition_present.
    + intros name Habsent Hname. rewrite obj_get_object_literal.
      cbn [fold_left member_get]. unfold field, js_spread in *.
      rewrite Habsent. cbn [override]. rewrite override_None_l.
      now apply cors_definition_absent.
Qed.
End Composition.

Lemma mapM_Ok_In {A B : Type} (f : A -> result B) l l' y :
  mapM f l = Ok l' -> In y l' -> exists x, In x l /\ f x = Ok y.
Proof.
  intros Hm. apply mapM_Ok_Forall2 in Hm.
  induction Hm as [|x y' l l' Hf _ IH]; simpl; [contradiction|].
  intros [<- | Hin].
  - exists x. auto.
  - destruct (IH Hin) as (x' & Hx' & Hf'). exists x'. auto.
Qed.

Lemma mapM_In_Ok {A B : Type} (f : A -> result B) l l' x :
  mapM f l = Ok l' -> In x l -> exists y, In y l' /\ f x = Ok y.
Proof.
  intros Hm. apply mapM_Ok_Forall2 in Hm.
  induction Hm as [|x' y l l' Hf _ IH]; simpl; [contradiction|].
  intros [<- | Hin].
  - exists y. auto.
  - destruct (IH Hin) as (y' & Hy' & Hf'). exists y'. auto.
Qed.

Section Authorization.
Context `{Collaborators}.

End Authorization.

(** ** Composition of one path item *)

Section PathItems.
Context `{Collaborators}.

Lemma preparePathSpec_Ok_inv scope path pathItem options gon pathItem' :
  preparePathSpec scope path pathItem options gon = Ok pathItem' ->
  exists methods composed cors,
    filterM (definesMethod pathItem) HttpMethods = Ok methods /\
    mapM (composeMethod scope path pathItem options gon) methods = Ok composed /\
    generateCorsOptionsMethod pathItem options = Ok cors /\
    pathItem' = object_literal
                  [ Spread (js_spread pathItem);
                    Spread (fromEntries composed);
                    Spread cors ].
Proof.
  unfold preparePathSpec. intros Hp.
  apply bind_Ok_inv in Hp as (methods & Hf & Hp).
  apply bind_Ok_inv in Hp as (composed & Hm & Hp).
  apply bind_Ok_inv in Hp as (cors & Hg & [= <-]).
  exists methods, composed, cors. auto.
Qed.

Lemma composeMethod_Ok_inv scope path pathItem options gon method e :
  composeMethod scope path pathItem options gon method = Ok e ->
  exists operation operation',
    js_member pathItem method = Ok operation /\
    applyMethodIntegration scope path method options operation gon = Ok operation' /\
    e = (method, operation').
Proof.
  unfold composeMethod. intros Hc.
  apply bind_Ok_inv in Hc as (operation & Hop & Hc).
  apply bind_Ok_inv in Hc as (operation' & Ha & [= <-]). eauto.
Qed.

(** The composed entries are keyed by the methods that were kept. *)
Lemma composed_get scope path pathItem options gon methods composed k v :
  mapM (composeMethod scope path pathItem options gon) methods = Ok composed ->
  obj_get k composed = Some v ->
  In k methods /\ composeMethod scope path pathItem options gon k = Ok (k, v).
Proof.
  intros Hm Hget. apply obj_get_In in Hget.
  destruct (mapM_Ok_In _ _ _ _ Hm Hget) as (m & Hin & Hc).
  pose proof Hc as Hc'.
  apply composeMethod_Ok_inv in Hc' as (op & op' & _ & _ & [= -> ->]). auto.
Qed.

Lemma composed_get_kept scope path pathItem options gon methods composed m :
  mapM (composeMethod scope path pathItem options gon) methods = Ok composed ->
  In m methods ->
  exists v, composeMethod scope path pathItem options gon m = Ok (m, v) /\
            obj_get m composed = Some v.
Proof.
  intros Hm Hin.
  destruct (mapM_In_Ok _ _ _ _ Hm Hin) as ([k v] & Hy & Hc).
  pose proof Hc as Hc'.
  apply composeMethod_Ok_inv in Hc' as (op & op' & _ & _ & [= -> ->]).
  exists op'. split; [assumption|].
  apply obj_in_In in Hy. apply obj_in_true_get in Hy as (v' & Hv').
  destruct (composed_get _ _ _ _ _ _ _ _ _ Hm Hv') as [_ Hc2].
  rewrite Hc in Hc2. now injection Hc2 as <-.
Qed.

Lemma composed_get_None scope path pathItem options gon methods composed k :
  mapM (composeMethod scope path pathItem options gon) methods = Ok composed ->
  ~ In k methods ->
  obj_get k composed = None.
Proof.
  intros Hm Hk. destruct (obj_get k composed) as [v|] eqn:Hget; [|reflexivity].
  destruct (composed_get _ _ _ _ _ _ _ _ _ Hm Hget) as [Hin _]. contradiction.
Qed.

Lemma generateCorsOptionsMethod_get pathItem options cors k :
  generateCorsOptionsMethod pathItem options = Ok cors ->
  k <> "options" ->
  obj_get k cors = None.
Proof.
  unfold generateCorsOptionsMethod. intros Hg Hk.
  apply bind_Ok_inv in Hg as (defined & _ & Hg).
  destruct defined, (corsOptions options); injection Hg as <-; try reflexivity.
  cbn [obj_get]. unfold HttpMethods_OPTIONS.
  destruct (String.eqb_spec "options" k); [congruence|reflexivity].
Qed.

(** C9: a composed operation agrees with the original on every property
    other than [responses], [x-amazon-apigateway-integration] and
    [security] (the security fragment having no other property), and a
    composed path item agrees with the original on every property that
    is not one of the recognised HTTP methods. *)
Theorem composition_preserves_other_fields :
  (forall a k, obj_in k (applyMethodAuthorizer a) = true -> k = "security") ->
  (forall scope path method options operation gon operation',
      applyMethodIntegration scope path method options operation gon = Ok operation' ->
      forall k,
        k <> "responses" -> k <> "x-amazon-apigateway-integration" -> k <> "security" ->
        field k operation' = field k operation)
  /\ (forall scope path pathItem options gon pathItem',
      preparePathSpec scope path pathItem options gon = Ok pathItem' ->
      forall k, ~ In k HttpMethods -> obj_get k pathItem' = field k pathItem).
Proof.
  intros Hfrag. split.
  - intros scope path method options operation gon operation' Ha k Hk1 Hk2 Hk3.
    apply applyMethodIntegration_Ok_inv in Ha
      as (effective & uri & responses & rewritten & _ & _ & _ & _ & ->).
    unfold field at 1. cbn [own_entries].
    rewrite obj_get_object_literal. cbn [fold_left member_get].
    destruct (obj_get k (applyMethodAuthorizer effective)) as [v|] eqn:Hsec.
    { exfalso. apply Hk3, (Hfrag effective).
      apply obj_in_true_get. eauto. }
    apply String.eqb_neq in Hk1, Hk2.
    rewrite String.eqb_sym in Hk1. rewrite String.eqb_sym in Hk2.
    rewrite Hk1, Hk2. cbn [override]. now rewrite override_None_l.
  - intros scope path pathItem options gon pathItem' Hp k Hk.
    apply preparePathSpec_Ok_inv in Hp as (methods & composed & cors & Hf & Hm & Hg & ->).
    rewrite obj_get_object_literal. cbn [fold_left member_get].
    rewrite obj_get_fromEntries.
    rewrite (composed_get_None _ _ _ _ _ _ _ _ Hm).
    + rewrite (generateCorsOptionsMethod_get _ _ _ _ Hg).
      * cbn [override]. now rewrite override_None_l.
      * intros ->. apply Hk. cbn. tauto.
    + intros Hin. apply (filterM_Ok_In _ _ _ Hf) in Hin as [Hin _]. contradiction.
Qed.
End PathItems.

(** ** The synthetic preflight method *)

Section Preflight.
Context `{Collaborators}.

Lemma generateCorsOptionsMethod_object o options :
  generateCorsOptionsMethod (JObj o) options =
  Ok (match obj_in "options" o, corsOptions options with
      | false, Some co => [("options", JObj (corsOptionsOperation co))]
      | _, _ => []
      end).
Proof.
  unfold generateCorsOptionsMethod. cbn [js_in bind]. unfold HttpMethods_OPTIONS.
  now destruct (obj_in "options" o), (corsOptions options).
Qed.

Lemma definesMethod_object o method :
  definesMethod (JObj o) method = Ok (truthy (js_prop o method)).
Proof. reflexivity. Qed.


(** C10: whenever the preflight method is generated for a path, the
    [options] operation of the composed path item is the synthetic one,
    built from the CORS options alone: it has the four properties
    [summary], [description], [responses] and
    [x-amazon-apigateway-integration], hence no [security] requirement,
    whatever default authorizer the options supply. *)
Theorem preflight_carries_no_authorizer scope path pathItem options gon co pathItem' :
  corsOptions options = Some co ->
  js_in "options" pathItem = Ok false ->
  preparePathSpec scope path pathItem options gon = Ok pathItem' ->
  obj_get "options" pathItem' = Some (JObj (corsOptionsOperation co))
  /\ map fst (corsOptionsOperation co)
       = ["summary"; "description"; "responses"; "x-amazon-apigateway-integration"]
  /\ field "security" (JObj (corsOptionsOperation co)) = None
  /\ forall d options',
       corsOptions options' = Some co ->
       defaultAuthorizer options' = Some d ->
       forall pathItem'',
         preparePathSpec scope path pathItem options' gon = Ok pathItem'' ->
         obj_get "options" pathItem'' = Some (JObj (corsOptionsOperation co)).
Proof.
  intros Hco Hin Hp.
  assert (Hgen : forall options1 p1,
             corsOptions options1 = Some co ->
             preparePathSpec scope path pathItem options1 gon = Ok p1 ->
             obj_get "options" p1 = Some (JObj (corsOptionsOperation co))).
  { intros options1 p1 Hco1 Hp1.
    apply preparePathSpec_Ok_inv in Hp1
      as (methods & composed & cors & _ & _ & Hg & ->).
    unfold generateCorsOptionsMethod in Hg. unfold HttpMethods_OPTIONS in Hg.
    rewrite Hin, Hco1 in Hg. cbn [bind] in Hg. injection Hg as <-.
    rewrite obj_get_object_literal. cbn [fold_left member_get].
    reflexivity. }
  split; [now apply (Hgen options)|].
  split; [reflexivity|]. split; [reflexivity|].
  intros d options' Hco' _ p'' Hp''. now apply (Hgen options').
Qed.
End Preflight.

(** ** The reverse index *)

Lemma obj_get_no_key {V : Type} k (o : list (string * V)) :
  (forall e, In e o -> fst e <> k) -> obj_get k o = None.
Proof.
  induction o as [|[k' v] o IH]; intros Hk; [reflexivity|]. simpl.
  rewrite IH by (intros e He; apply Hk; now right).
  destruct (String.eqb_spec k' k) as [->|]; [|reflexivity].
  exfalso. apply (Hk (k, v)); [now left|reflexivity].
Qed.

Section ReverseIndex.
Context `{Collaborators}.

(** The index resolves a key to the identifier of the last entry of
    [operationLookup] that concatenates to it. *)
Lemma getOperationName_last options before id mp after mp' :
  operationLookup options = (before ++ (id, mp) :: after)%list ->
  (forall e, In e after ->
     concatMethodAndPath (snd e) <> concatMethodAndPath mp) ->
  concatMethodAndPath mp' = concatMethodAndPath mp ->
  getOperationName options mp' = Some id.
Proof.
  intros Hl Hafter Hkey. unfold getOperationName, operationNameByPath.
  rewrite obj_get_fromEntries, Hl, map_app, obj_get_app. cbn [map obj_get fst snd].
  rewrite obj_get_no_key.
  - rewrite Hkey. now rewrite String.eqb_refl.
  - intros e He. apply in_map_iff in He as (e0 & <- & He0). cbn [fst].
    rewrite Hkey. now apply Hafter.
Qed.

(** C5: when two entries of [operationLookup] concatenate to the same
    key, the reverse index resolves that (method, path) to the identifier
    of the later entry (the last one written into the index).  The
    collision is not rejected: the only [Error] the transform throws
    remains the missing-integration error of an operation of the
    document. *)
Theorem reverse_index_last_write_wins
    options l1 id1 mp1 l2 id2 mp2 l3 :
  operationLookup options = (l1 ++ (id1, mp1) :: l2 ++ (id2, mp2) :: l3)%list ->
  concatMethodAndPath mp1 = concatMethodAndPath mp2 ->
  (forall e, In e l3 ->
     concatMethodAndPath (snd e) <> concatMethodAndPath mp2) ->
  getOperationName options mp1 = Some id2
  /\ getOperationName options mp2 = Some id2
  /\ forall scope spec msg,
       prepareApiSpec scope spec options = Throw (Error msg) ->
       exists path method,
         present spec path method /\ lacks_integration options path method /\
         msg = "Missing required integration for operation "
                 ++ ToString (getOperationName options
                                {| method := method; path := path |})
                 ++ " (" ++ method ++ " " ++ path ++ ")".
Proof.
  intros Hl Hkey Hl3.
  assert (Hl' : operationLookup options
                = ((l1 ++ (id1, mp1) :: l2) ++ (id2, mp2) :: l3)%list).
  { rewrite Hl. rewrite <- app_assoc. reflexivity. }
  split; [|split].
  - exact (getOperationName_last options _ id2 mp2 l3 mp1 Hl' Hl3 Hkey).
  - exact (getOperationName_last options _ id2 mp2 l3 mp2 Hl' Hl3 eq_refl).
  - intros scope spec msg Hp.
    exact (prepareApiSpec_Error_provenance scope spec options msg Hp).
Qed.
End ReverseIndex.

(** ** The CORS policy is not validated *)

Section CorsPolicy.
Context `{Collaborators}.

Lemma rewriteResponse_same_outcome cors1 cors2 e :
  same_outcome (rewriteResponse cors1 e) (rewriteResponse cors2 e).
Proof.
  destruct e as [statusCode response]. unfold rewriteResponse.
  destruct (js_member response "headers"); simpl; auto.
Qed.

Lemma composeOperation_same_outcome o1 o2 operation a1 a2 uri1 uri2 :
  same_outcome (composeOperation o1 operation a1 uri1)
               (composeOperation o2 operation a2 uri2).
Proof.
  unfold composeOperation.
  apply same_outcome_bind; [apply same_outcome_refl|].
  intros r r' Hr Hr'. rewrite Hr in Hr'. injection Hr' as <-.
  apply same_outcome_bind; [apply same_outcome_refl|].
  intros es es' He He'. rewrite He in He'. injection He' as <-.
  apply same_outcome_bind.
  - apply same_outcome_mapM. intros e _. apply rewriteResponse_same_outcome.
  - intros; exact I.
Qed.

Lemma applyMethodIntegration_same_outcome scope path method o1 o2 operation gon :
  integrations o1 = integrations o2 ->
  same_outcome (applyMethodIntegration scope path method o1 operation gon)
               (applyMethodIntegration scope path method o2 operation gon).
Proof.
  intros Hi. unfold applyMethodIntegration. rewrite Hi.
  destruct (has_property _ (integrations o2)); cbn [negb]; [|reflexivity].
  destruct (obj_get _ (integrations o2));
    [|destruct (functionInvocationUri_undefined scope); [|reflexivity]];
    apply composeOperation_same_outcome.
Qed.

Lemma generateCorsOptionsMethod_same_outcome pathItem o1 o2 :
  same_outcome (generateCorsOptionsMethod pathItem o1)
               (generateCorsOptionsMethod pathItem o2).
Proof.
  unfold generateCorsOptionsMethod.
  destruct (js_in HttpMethods_OPTIONS pathItem) as [b|]; cbn [bind]; [|reflexivity].
  now destruct b, (corsOptions o1), (corsOptions o2).
Qed.

Lemma preparePathSpec_same_outcome scope path pathItem o1 o2 gon :
  integrations o1 = integrations o2 ->
  same_outcome (preparePathSpec scope path pathItem o1 gon)
               (preparePathSpec scope path pathItem o2 gon).
Proof.
  intros Hi. unfold preparePathSpec.
  apply same_outcome_bind; [apply same_outcome_refl|].
  intros ms ms' Hm Hm'. rewrite Hm in Hm'. injection Hm' as <-.
  apply same_outcome_bind.
  - apply same_outcome_mapM. intros m _. unfold composeMethod.
    apply same_outcome_bind; [apply same_outcome_refl|].
    intros op op' Hop Hop'. rewrite Hop in Hop'. injection Hop' as <-.
    apply same_outcome_bind; [now apply applyMethodIntegration_same_outcome|].
    intros; exact I.
  - intros cs cs' _ _. apply same_outcome_bind.
    + apply generateCorsOptionsMethod_same_outcome.
    + intros; exact I.
Qed.

(** Whether the transform returns or throws, and what it throws, does not
    depend on the CORS policy or on the default authorizer. *)
Lemma prepareApiSpec_same_outcome scope spec o1 o2 :
  integrations o1 = integrations o2 ->
  operationLookup o1 = operationLookup o2 ->
  same_outcome (prepareApiSpec scope spec o1) (prepareApiSpec scope spec o2).
Proof.
  intros Hi Hl. unfold prepareApiSpec.
  apply same_outcome_bind; [apply same_outcome_refl|].
  intros es es' He He'. rewrite He in He'. injection He' as <-.
  apply same_outcome_bind.
  - apply same_outcome_mapM. intros e _. unfold composePath.
    apply same_outcome_bind; [|intros; exact I].
    replace (getOperationName o1) with (getOperationName o2)
      by (unfold getOperationName, operationNameByPath; now rewrite Hl).
    now apply preparePathSpec_same_outcome.
  - intros; exact I.
Qed.

(** C7, as amended: a CORS policy with an empty [allowOrigins] list is
    not rejected.  The transform ends exactly as it does under any other
    supplied policy (it returns a document, or throws the same
    exception), and the Access-Control-Allow-Origin value it emits, in
    the response headers and in the gateway response parameters of the
    returned document, is the empty quoted literal. *)
Theorem empty_origins_not_rejected scope spec options policy other :
  allowOrigins policy = [] ->
  obj_get "Access-Control-Allow-Origin" (generateCorsResponseHeaders policy)
    = Some "''"
  /\ same_outcome (prepareApiSpec scope spec (with_cors options policy))
                  (prepareApiSpec scope spec (with_cors options other))
  /\ forall document',
       prepareApiSpec scope spec (with_cors options policy) = Ok document' ->
       at_path [ "x-amazon-apigateway-gateway-responses";
                 ResponseType_BAD_REQUEST_BODY;
                 "responseParameters";
                 "gatewayresponse.header.Access-Control-Allow-Origin" ]
               (JObj document')
         = Some (JStr "''").
Proof.
  intros Hempty. split; [|split].
  - unfold generateCorsResponseHeaders, quoted_join. rewrite Hempty. reflexivity.
  - now apply prepareApiSpec_same_outcome.
  - intros document' Hp. unfold prepareApiSpec in Hp.
    apply bind_Ok_inv in Hp as (es & _ & Hp).
    apply bind_Ok_inv in Hp as (paths & _ & [= <-]).
    cbn [at_path]. unfold field at 1. cbn [own_entries].
    rewrite obj_get_object_literal. cbn [fold_left member_get override].
    cbn [String.eqb Ascii.eqb Bool.eqb override].
    unfold gatewayResponses, field at 1. cbn [own_entries obj_get].
    rewrite String.eqb_refl.
    cbn [with_cors corsOptions].
    unfold generateCorsResponseParameters, generateCorsResponseHeaders, quoted_join.
    rewrite Hempty. reflexivity.
Qed.
End CorsPolicy.

(** ** Labelled backend functions *)

Section Labelled.
Context `{Collaborators}.

(** C8, as amended: the list is the custom authorizers' functions,
    labelled by authorizer id, followed by one entry per entry of the
    integrations mapping, labelled by its operation id and carrying its
    function.  No entry is dropped for repeating a handle: the entries of
    the integration part that carry handles selected by a predicate are as
    many as the operations whose integration carries such a handle. *)
Theorem labelled_functions_one_per_label options :
  map label (getLabelledFunctions options)
    = (map authorizerId (filter isCustomAuthorizer (getAllAuthorizers options))
       ++ map fst (integrations options))%list
  /\ map lf_function (getLabelledFunctions options)
    = (map customAuthorizerFunction
           (filter isCustomAuthorizer (getAllAuthorizers options))
       ++ map (fun e => function (snd e)) (integrations options))%list
  /\ forall selects : IFunction -> bool,
       length (filter (fun l => selects (lf_function l))
                      (getLabelledIntegrationFunctions options))
       = length (filter (fun e => selects (function (snd e))) (integrations options)).
Proof.
  unfold getLabelledFunctions, getLabelledAuthorizerFunctions,
    getLabelledIntegrationFunctions.
  split; [|split].
  - rewrite map_app, !map_map. reflexivity.
  - rewrite map_app, !map_map. reflexivity.
  - intros selects. induction (integrations options) as [|e l IH]; [reflexivity|].
    cbn [map filter lf_function].
    destruct (selects (function (snd e))); cbn [length]; now rewrite IH.
Qed.
End Labelled.

(** ** An unresolved operation name *)

Section UnresolvedName.
Context `{Collaborators}.

(** A (method, path) the reverse index does not know resolves to
    [undefined], which the guard and the member access convert to the
    property key [undefined]: the operation is composed as if that were
    its identifier. *)
Lemma unresolved_name_reads_undefined_key
    scope path method options operation gon :
  gon {| method := method; path := path |} = None ->
  applyMethodIntegration scope path method options operation gon
  = applyMethodIntegration scope path method options operation
      (fun _ => Some "undefined").
Proof.
  intros Hg. unfold applyMethodIntegration, missing_integration_message.
  now rewrite Hg.
Qed.

(** Unless the integrations mapping has such an entry, the failed lookup
    is fatal. *)
Lemma unresolved_name_is_fatal scope path method options operation gon :
  gon {| method := method; path := path |} = None ->
  obj_in "undefined" (integrations options) = false ->
  applyMethodIntegration scope path method options operation gon
  = Throw (Error ("Missing required integration for operation undefined ("
                    ++ method ++ " " ++ path ++ ")")).
Proof.
  intros Hg Hin. unfold applyMethodIntegration, missing_integration_message.
  rewrite Hg. cbn [ToPropertyKey ToString]. unfold has_property.
  now rewrite Hin.
Qed.
End UnresolvedName.

(** ** When composition succeeds *)

Lemma js_member_nullish v k :
  nullish v = true -> js_member v k = Throw TypeError.
Proof. destruct v; simpl; congruence. Qed.

Lemma js_member_not_nullish v k :
  nullish v = false -> exists w, js_member v k = Ok w.
Proof. destruct v; simpl; try discriminate; eauto. Qed.

Lemma js_member_Ok_not_nullish v k w : js_member v k = Ok w -> nullish v = false.
Proof. destruct v; simpl; congruence. Qed.

Lemma Object_entries_nullish v :
  Object_entries v = if nullish v then Throw TypeError else Ok (own_entries v).
Proof. now destruct v. Qed.

Lemma js_in_Ok_not_nullish k v b : js_in k v = Ok b -> nullish v = false.
Proof. destruct v; simpl; congruence. Qed.

Lemma mapM_all_Ok {A B : Type} (f : A -> result B) l :
  (forall x, In x l -> exists y, f x = Ok y) -> exists l', mapM f l = Ok l'.
Proof.
  induction l as [|x l IH]; intros Hall; simpl; [eauto|].
  destruct (Hall x (or_introl eq_refl)) as (y & ->).
  destruct IH as (l' & ->); [intros z Hz; apply Hall; now right|].
  simpl. eauto.
Qed.

Lemma filterM_all_Ok {A : Type} (f : A -> result bool) l :
  (forall x, In x l -> exists b, f x = Ok b) -> exists l', filterM f l = Ok l'.
Proof.
  induction l as [|x l IH]; intros Hall; simpl; [eauto|].
  destruct (Hall x (or_introl eq_refl)) as (b & ->).
  destruct IH as (l' & ->); [intros z Hz; apply Hall; now right|].
  simpl. eauto.
Qed.

Section Outcome.
Context `{Collaborators}.

Lemma rewriteResponse_outcome cors e :
  if nullish (snd e)
  then rewriteResponse cors e = Throw TypeError
  else exists e', rewriteResponse cors e = Ok e'.
Proof.
  destruct e as [statusCode response]. unfold rewriteResponse. cbn [snd].
  destruct (nullish response) eqn:Hn.
  - now rewrite (js_member_nullish _ _ Hn).
  - destruct (js_member_not_nullish response "headers" Hn) as (h & ->).
    simpl. eauto.
Qed.

Lemma rewriteResponses_outcome cors entries :
  if forallb (fun e => negb (nullish (snd e))) entries
  then exists rewritten, mapM (rewriteResponse cors) entries = Ok rewritten
  else mapM (rewriteResponse cors) entries = Throw TypeError.
Proof.
  destruct (forallb _ entries) eqn:Hall.
  - apply mapM_all_Ok. intros e He.
    rewrite forallb_forall in Hall. specialize (Hall e He).
    pose proof (rewriteResponse_outcome cors e) as Ho.
    apply negb_true_iff in Hall. now rewrite Hall in Ho.
  - destruct (mapM (rewriteResponse cors) entries) as [rewritten|err] eqn:Hm.
    + exfalso. assert (Htrue : forallb (fun e => negb (nullish (snd e))) entries = true);
        [|congruence].
      apply forallb_forall. intros e He.
      destruct (mapM_In_Ok _ _ _ _ Hm He) as (e' & _ & Hr).
      pose proof (rewriteResponse_outcome cors e) as Ho.
      destruct (nullish (snd e)); [congruence|reflexivity].
    + apply mapM_Throw_inv in Hm as (e & _ & Hr).
      apply rewriteResponse_Throw in Hr. now subst.
Qed.

Lemma composeOperation_outcome options operation effective uri :
  if well_shaped operation
  then exists operation', composeOperation options operation effective uri = Ok operation'
  else composeOperation options operation effective uri = Throw TypeError.
Proof.
  unfold well_shaped, composeOperation.
  destruct (js_member operation "responses") as [responses|e] eqn:Hr.
  - cbn [bind]. rewrite Object_entries_nullish.
    destruct (nullish responses); [reflexivity|]. cbn [negb andb bind].
    pose proof (rewriteResponses_outcome (corsOptions options) (own_entries responses))
      as Ho.
    destruct (forallb _ (own_entries responses)).
    + destruct Ho as (rewritten & ->). cbn [bind]. eauto.
    + now rewrite Ho.
  - apply js_member_Throw in Hr. now subst.
Qed.

Lemma reaches_composition_has_property scope options operationName :
  reaches_composition scope options operationName = true ->
  has_property (ToPropertyKey operationName) (integrations options) = true.
Proof.
  unfold reaches_composition, has_property.
  destruct (obj_in _ (integrations options)); [reflexivity|].
  cbn [orb]. now intros [-> _]%andb_true_iff.
Qed.

(** What [applyMethodIntegration] does past its guard. *)
Lemma applyMethodIntegration_past_guard scope path method options operation gon :
  has_property (ToPropertyKey (gon {| method := method; path := path |}))
               (integrations options) = true ->
  if reaches_composition scope options (gon {| method := method; path := path |})
  then exists effective uri,
         applyMethodIntegration scope path method options operation gon
         = composeOperation options operation effective uri
  else applyMethodIntegration scope path method options operation gon = Throw TypeError.
Proof.
  intros Hp. unfold applyMethodIntegration, reaches_composition. rewrite Hp.
  cbn [negb]. unfold has_property in Hp.
  destruct (obj_in _ (integrations options)) eqn:Hin.
  - apply obj_in_true_get in Hin as (integration & ->). cbn [orb]. eauto.
  - cbn [orb] in *. rewrite Hp. cbn [andb].
    apply obj_in_false_get in Hin. rewrite Hin.
    destruct (functionInvocationUri_undefined scope); eauto.
Qed.

(** X1: the outcome of composing one operation is decided by three tests,
    in this order.  When the resolved identifier names no property of the
    integrations mapping, own or inherited, the missing-integration [Error]
    is thrown, whatever the operation looks like.  Otherwise a [TypeError]
    is thrown when the identifier is an inherited name without an entry of
    its own and [functionInvocationUri] rejects [undefined], and also when
    the operation, its [responses] or one of the responses is [undefined]
    or [null] (an operation without [responses], for one).  A composed
    operation is returned in every other case. *)
Theorem method_composition_outcome scope path method options operation gon :
  (has_property (ToPropertyKey (gon {| method := method; path := path |}))
                (integrations options) = false ->
   applyMethodIntegration scope path method options operation gon
     = Throw (Error ("Missing required integration for operation "
                       ++ ToString (gon {| method := method; path := path |})
                       ++ " (" ++ method ++ " " ++ path ++ ")")))
  /\ (has_property (ToPropertyKey (gon {| method := method; path := path |}))
                   (integrations options) = true ->
      reaches_composition scope options (gon {| method := method; path := path |})
        = false ->
      applyMethodIntegration scope path method options operation gon = Throw TypeError)
  /\ (has_property (ToPropertyKey (gon {| method := method; path := path |}))
                   (integrations options) = true ->
      well_shaped operation = false ->
      applyMethodIntegration scope path method options operation gon = Throw TypeError)
  /\ (reaches_composition scope options (gon {| method := method; path := path |})
        = true ->
      well_shaped operation = true ->
      exists operation',
        applyMethodIntegration scope path method options operation gon = Ok operation').
Proof.
  split; [apply applyMethodIntegration_missing|].
  split; [|split].
  - intros Hp Hr.
    pose proof (applyMethodIntegration_past_guard scope path method options operation
                  gon Hp) as Ho.
    now rewrite Hr in Ho.
  - intros Hp Hs.
    pose proof (applyMethodIntegration_past_guard scope path method options operation
                  gon Hp) as Ho.
    destruct (reaches_composition scope options _); [|exact Ho].
    destruct Ho as (effective & uri & ->).
    pose proof (composeOperation_outcome options operation effective uri) as Hc.
    now rewrite Hs in Hc.
  - intros Hr Hs.
    pose proof (applyMethodIntegration_past_guard scope path method options operation
                  gon (reaches_composition_has_property _ _ _ Hr)) as Ho.
    rewrite Hr in Ho. destruct Ho as (effective & uri & ->).
    pose proof (composeOperation_outcome options operation effective uri) as Hc.
    now rewrite Hs in Hc.
Qed.

Lemma applyMethodIntegration_Ok_iff scope path method options operation gon :
  (exists operation',
      applyMethodIntegration scope path method options operation gon = Ok operation')
  <-> reaches_composition scope options (gon {| method := method; path := path |})
        = true
      /\ well_shaped operation = true.
Proof.
  split.
  - intros (op' & Ha).
    destruct (has_property (ToPropertyKey (gon {| method := method; path := path |}))
                (integrations options)) eqn:Hp.
    + pose proof (applyMethodIntegration_past_guard scope path method options
                    operation gon Hp) as Ho.
      destruct (reaches_composition scope options _); [|congruence].
      split; [reflexivity|].
      destruct Ho as (effective & uri & Ho). rewrite Ho in Ha.
      pose proof (composeOperation_outcome options operation effective uri) as Hc.
      destruct (well_shaped operation); [reflexivity|congruence].
    + rewrite (applyMethodIntegration_missing _ _ _ _ _ _ Hp) in Ha. discriminate.
  - intros [Hr Hs].
    pose proof (applyMethodIntegration_past_guard scope path method options operation
                  gon (reaches_composition_has_property _ _ _ Hr)) as Ho.
    rewrite Hr in Ho. destruct Ho as (effective & uri & ->).
    pose proof (composeOperation_outcome options operation effective uri) as Hc.
    now rewrite Hs in Hc.
Qed.

(** X2: the transform returns a document exactly when [spec.paths] is
    neither [undefined] nor [null], every path item is an object (or
    array), and every operation the transform composes (a recognised method
    holding a truthy value) has well-shaped responses and resolves to a
    name that reaches composition: a key of the integrations mapping or,
    when [functionInvocationUri] accepts [undefined], a name the mapping
    inherits.  Nothing else (in particular no CORS policy, authorizer or
    lookup collision) can make it throw. *)
Theorem document_composition_succeeds_iff scope spec options :
  (exists document', prepareApiSpec scope spec options = Ok document')
  <-> nullish (js_prop spec "paths") = false
      /\ forall path pathItem,
           In (path, pathItem) (own_entries (js_prop spec "paths")) ->
           (exists defined, js_in "options" pathItem = Ok defined)
           /\ forall method operation,
                In method HttpMethods ->
                js_member pathItem method = Ok operation ->
                truthy operation = true ->
                reaches_composition scope options
                  (getOperationName options {| method := method; path := path |})
                  = true
                /\ well_shaped operation = true.
Proof.
  split.
  - intros (document' & Hp). unfold prepareApiSpec in Hp.
    apply bind_Ok_inv in Hp as (entries & He & Hp).
    apply bind_Ok_inv in Hp as (paths & Hm & _).
    rewrite Object_entries_nullish in He.
    destruct (nullish (js_prop spec "paths")); [discriminate|].
    injection He as <-. split; [reflexivity|].
    intros path pathItem Hin.
    destruct (mapM_In_Ok _ _ _ _ Hm Hin) as (e' & _ & Hc).
    unfold composePath in Hc. cbn [fst snd] in Hc.
    apply bind_Ok_inv in Hc as (pathItem' & Hpath & _).
    apply preparePathSpec_Ok_inv in Hpath
      as (methods & composed & cors & Hf & Hcm & Hg & _).
    split.
    + unfold generateCorsOptionsMethod in Hg.
      apply bind_Ok_inv in Hg as (defined & Hd & _). eauto.
    + intros method operation Hmeth Hop Ht.
      assert (Hkept : In method methods).
      { apply (filterM_Ok_In _ _ _ Hf). split; [assumption|].
        apply definesMethod_true. eauto. }
      destruct (composed_get_kept _ _ _ _ _ _ _ _ Hcm Hkept) as (v & Hc & _).
      apply composeMethod_Ok_inv in Hc as (op & op' & Hop' & Ha & _).
      rewrite Hop in Hop'. injection Hop' as <-.
      apply (proj1 (applyMethodIntegration_Ok_iff scope path method options operation
                      (getOperationName options))). eauto.
  - intros [Hpaths Hall]. unfold prepareApiSpec.
    rewrite Object_entries_nullish, Hpaths. cbn [bind].
    destruct (mapM_all_Ok (composePath scope options)
                (own_entries (js_prop spec "paths"))) as (paths & ->);
      [|cbn [bind]; eauto].
    intros [path pathItem] Hin. destruct (Hall path pathItem Hin) as [(defined & Hd) Hops].
    unfold composePath. cbn [fst snd].
    pose proof (js_in_Ok_not_nullish _ _ _ Hd) as Hnn.
    assert (Hp : exists pathItem',
               preparePathSpec scope path pathItem options (getOperationName options)
               = Ok pathItem').
    { unfold preparePathSpec.
      destruct (filterM_all_Ok (definesMethod pathItem) HttpMethods) as (methods & Hf).
      { intros m _. unfold definesMethod.
        destruct (js_member_not_nullish pathItem m Hnn) as (w & ->). simpl. eauto. }
      rewrite Hf. cbn [bind].
      destruct (mapM_all_Ok (composeMethod scope path pathItem options
                               (getOperationName options)) methods) as (composed & ->).
      { intros m Hm. apply (filterM_Ok_In _ _ _ Hf) in Hm as [Hm Hdef].
        apply definesMethod_true in Hdef as (operation & Hop & Ht).
        destruct (Hops m operation Hm Hop Ht) as [Hint Hs].
        destruct (proj2 (applyMethodIntegration_Ok_iff scope path m options operation
                           (getOperationName options)) (conj Hint Hs)) as (op' & Ha).
        unfold composeMethod. rewrite Hop. cbn [bind]. rewrite Ha. cbn [bind]. eauto. }
      cbn [bind]. unfold generateCorsOptionsMethod, HttpMethods_OPTIONS. rewrite Hd.
      cbn [bind]. destruct defined, (corsOptions options); cbn [bind]; eauto. }
    destruct Hp as (pathItem' & ->). cbn [bind]. eauto.
Qed.
End Outcome.

(** ** The composed document *)

Section Document.
Context `{Collaborators}.

Lemma prepareApiSpec_Ok_inv scope spec options document' :
  prepareApiSpec scope spec options = Ok document' ->
  exists paths,
    nullish (js_prop spec "paths") = false /\
    mapM (composePath scope options) (own_entries (js_prop spec "paths")) = Ok paths /\
    document' = object_literal
      [ Spread spec;
        KV "x-amazon-apigateway-request-validators" (JObj requestValidators);
        KV "x-amazon-apigateway-request-validator" (JStr "all");
        KV "x-amazon-apigateway-gateway-responses" (JObj (gatewayResponses options));
        KV "paths" (JObj (object_literal [ Spread (fromEntries paths) ]));
        KV "components" (JObj (object_literal
          [ Spread (js_spread (js_prop spec "components"));
            KV "securitySchemes" (prepareSecuritySchemes scope options) ])) ].
Proof.
  unfold prepareApiSpec. intros Hp.
  apply bind_Ok_inv in Hp as (entries & He & Hp).
  apply bind_Ok_inv in Hp as (paths & Hm & [= <-]).
  rewrite Object_entries_nullish in He.
  destruct (nullish (js_prop spec "paths")); [discriminate|].
  injection He as <-. eauto.
Qed.

Lemma composePath_key scope options e e' :
  composePath scope options e = Ok e' -> fst e' = fst e.
Proof.
  unfold composePath. intros Hc.
  apply bind_Ok_inv in Hc as (pathItem' & _ & [= <-]). reflexivity.
Qed.

(** X3: the [paths] of the returned document has exactly the path keys of
    the input, and under each key the path item the Path Composer returns
    for the input's path item. *)
Theorem document_paths_are_composed scope spec options document' :
  prepareApiSpec scope spec options = Ok document' ->
  exists paths',
    obj_get "paths" document' = Some (JObj paths')
    /\ (forall p, obj_in p paths' = obj_in p (own_entries (js_prop spec "paths")))
    /\ (forall p pathItem,
          obj_get p (own_entries (js_prop spec "paths")) = Some pathItem ->
          exists pathItem',
            preparePathSpec scope p pathItem options (getOperationName options)
              = Ok pathItem'
            /\ obj_get p paths' = Some (JObj pathItem')).
Proof.
  intros Hp. apply prepareApiSpec_Ok_inv in Hp as (paths & _ & Hm & ->).
  exists (object_literal [ Spread (fromEntries paths) ]).
  assert (Hget : forall p, obj_get p (object_literal [ Spread (fromEntries paths) ])
                           = obj_get p paths).
  { intros p. rewrite obj_get_object_literal. cbn [fold_left member_get].
    rewrite override_None_l. apply obj_get_fromEntries. }
  split; [|split].
  - rewrite obj_get_object_literal. reflexivity.
  - intros p. rewrite !obj_in_get, Hget.
    destruct (obj_get p (own_entries (js_prop spec "paths"))) as [pathItem|] eqn:Hin.
    + destruct (mapM_obj_get_Some _ _ _ _ _ (composePath_key scope options) Hm Hin)
        as (v' & _ & ->). reflexivity.
    + now rewrite (mapM_obj_get_None _ _ _ _ (composePath_key scope options) Hm Hin).
  - intros p pathItem Hin. rewrite Hget.
    destruct (mapM_obj_get_Some _ _ _ _ _ (composePath_key scope options) Hm Hin)
      as (v' & Hc & Hv').
    unfold composePath in Hc. cbn [fst snd] in Hc.
    apply bind_Ok_inv in Hc as (pathItem' & Hpath & [= <-]). eauto.
Qed.

(** X4: of the top-level properties of the document the transform rewrites
    five and keeps every other one as it was.  The request validator is
    forced: whatever the input held under
    [x-amazon-apigateway-request-validator(s)] is replaced by the validator
    [all], which validates both the request body and the request
    parameters. *)
Theorem document_top_level_frame scope spec options document' :
  prepareApiSpec scope spec options = Ok document' ->
  (forall k,
      ~ In k [ "x-amazon-apigateway-request-validators";
               "x-amazon-apigateway-request-validator";
               "x-amazon-apigateway-gateway-responses";
               "paths"; "components" ] ->
      obj_get k document' = obj_get k spec)
  /\ obj_get "x-amazon-apigateway-request-validator" document' = Some (JStr "all")
  /\ obj_get "x-amazon-apigateway-request-validators" document'
       = Some (JObj [ ("all", JObj [ ("validateRequestBody", JBool true);
                                     ("validateRequestParameters", JBool true) ]) ]).
Proof.
  intros Hp. apply prepareApiSpec_Ok_inv in Hp as (paths & _ & _ & ->).
  split; [|split].
  - intros k Hk. cbn [In] in Hk.
    rewrite obj_get_object_literal. cbn [fold_left member_get].
    destruct (String.eqb_spec "x-amazon-apigateway-request-validators" k); [tauto|].
    destruct (String.eqb_spec "x-amazon-apigateway-request-validator" k); [tauto|].
    destruct (String.eqb_spec "x-amazon-apigateway-gateway-responses" k); [tauto|].
    destruct (String.eqb_spec "paths" k); [tauto|].
    destruct (String.eqb_spec "components" k); [tauto|].
    cbn [override]. apply override_None_l.
  - rewrite obj_get_object_literal. reflexivity.
  - rewrite obj_get_object_literal. reflexivity.
Qed.

(** X5: the [components] of the returned document keeps every component
    section of the input except [securitySchemes], which is always set to
    what [prepareSecuritySchemes] returns: security schemes the input
    declared are not carried over by the transform itself. *)
Theorem document_components scope spec options document' :
  prepareApiSpec scope spec options = Ok document' ->
  exists components',
    obj_get "components" document' = Some (JObj components')
    /\ obj_get "securitySchemes" components' = Some (prepareSecuritySchemes scope options)
    /\ forall k, k <> "securitySchemes" ->
         obj_get k components' = field k (js_prop spec "components").
Proof.
  intros Hp. apply prepareApiSpec_Ok_inv in Hp as (paths & _ & _ & ->).
  eexists. split; [|split].
  - rewrite obj_get_object_literal. reflexivity.
  - rewrite obj_get_object_literal. cbn [fold_left member_get].
    rewrite String.eqb_refl. reflexivity.
  - intros k Hk. rewrite obj_get_object_literal. cbn [fold_left member_get].
    destruct (String.eqb_spec "securitySchemes" k); [congruence|].
    cbn [override]. apply override_None_l.
Qed.
End Document.

(** ** The composed path item *)

Section ComposedPathItem.
Context `{Collaborators}.

Lemma kept_method_is_defined o methods m :
  filterM (definesMethod (JObj o)) HttpMethods = Ok methods ->
  In m methods -> truthy (js_prop o m) = true /\ obj_in m o = true.
Proof.
  intros Hf Hm. apply (filterM_Ok_In _ _ _ Hf) in Hm as [_ Hd].
  rewrite definesMethod_object in Hd. injection Hd as Ht. split; [assumption|].
  rewrite obj_in_get. unfold js_prop in Ht.
  destruct (obj_get m o); [reflexivity|discriminate].
Qed.

Lemma composed_path_item_get scope path o options gon methods composed k :
  filterM (definesMethod (JObj o)) HttpMethods = Ok methods ->
  mapM (composeMethod scope path (JObj o) options gon) methods = Ok composed ->
  obj_get k (object_literal
               [ Spread (js_spread (JObj o)); Spread (fromEntries composed);
                 Spread (match obj_in "options" o, corsOptions options with
                         | false, Some co =>
                             [("options", JObj (corsOptionsOperation co))]
                         | _, _ => []
                         end) ])
  = override (override (obj_get k o) (obj_get k composed))
      (obj_get k (match obj_in "options" o, corsOptions options with
                  | false, Some co => [("options", JObj (corsOptionsOperation co))]
                  | _, _ => []
                  end)).
Proof.
  intros _ _. rewrite obj_get_object_literal.
  cbn [fold_left member_get js_spread own_entries].
  now rewrite obj_get_fromEntries, override_None_l.
Qed.

Lemma composed_path_item_keys scope path o options gon pathItem' k :
  preparePathSpec scope path (JObj o) options gon = Ok pathItem' ->
  obj_in k pathItem'
  = obj_in k o
    || ((k =? "options")
        && match corsOptions options with Some _ => true | None => false end).
Proof.
  intros Hp.
  apply preparePathSpec_Ok_inv in Hp as (methods & composed & cors & Hf & Hm & Hg & ->).
  rewrite generateCorsOptionsMethod_object in Hg. injection Hg as <-.
  rewrite (obj_in_get k (object_literal _)),
    (composed_path_item_get scope path o options gon methods composed k Hf Hm).
  assert (Hc : forall v, obj_get k composed = Some v -> obj_in k o = true).
  { intros v Hv. destruct (composed_get _ _ _ _ _ _ _ _ _ Hm Hv) as [Hk _].
    now apply (kept_method_is_defined o methods k Hf). }
  rewrite (obj_in_get k o) in *.
  destruct (obj_get k composed) as [v|] eqn:Hv; cbn [override].
  { rewrite (Hc v eq_refl). cbn [orb].
    now destruct (obj_get k (match obj_in "options" o, corsOptions options with
                             | false, Some co =>
                                 [("options", JObj (corsOptionsOperation co))]
                             | _, _ => []
                             end)). }
  destruct (obj_in "options" o) eqn:Hopt; destruct (corsOptions options) as [co|];
    cbn [obj_get override].
  - destruct (String.eqb_spec k "options") as [->|].
    + rewrite obj_in_get in Hopt. now rewrite Hopt.
    + now rewrite orb_false_r.
  - now rewrite andb_false_r, orb_false_r.
  - destruct (String.eqb_spec "options" k) as [<-|Hne].
    + rewrite String.eqb_refl. cbn [override andb]. now rewrite orb_true_r.
    + cbn [override]. apply String.eqb_neq in Hne. rewrite String.eqb_sym in Hne.
      rewrite Hne. now rewrite orb_false_r.
  - now rewrite andb_false_r, orb_false_r.
Qed.

(** X7: composing a path item object keeps its set of properties, adding
    [options] when CORS options are supplied (and only then).  Every
    recognised method that holds a truthy value is replaced by the result
    of the Method Integration Composer for it; a recognised method key
    holding a falsy value (such as [null]) is left as it is. *)
Theorem path_item_composition scope path o options gon pathItem' :
  preparePathSpec scope path (JObj o) options gon = Ok pathItem' ->
  (forall k,
      obj_in k pathItem'
      = obj_in k o
        || ((k =? "options")
            && match corsOptions options with Some _ => true | None => false end))
  /\ (forall m, In m HttpMethods -> truthy (js_prop o m) = true ->
        exists operation',
          applyMethodIntegration scope path m options (js_prop o m) gon = Ok operation'
          /\ obj_get m pathItem' = Some operation')
  /\ (forall m, In m HttpMethods -> truthy (js_prop o m) = false ->
        obj_in m o = true ->
        obj_get m pathItem' = obj_get m o).
Proof.
  intros Hp.
  apply preparePathSpec_Ok_inv in Hp as (methods & composed & cors & Hf & Hm & Hg & ->).
  rewrite generateCorsOptionsMethod_object in Hg. injection Hg as <-.
  pose proof (fun k => composed_path_item_get scope path o options gon methods
                         composed k Hf Hm) as Hget.
  split; [|split].
  - intros k. apply (composed_path_item_keys scope path o options gon).
    unfold preparePathSpec. rewrite Hf. cbn [bind]. rewrite Hm. cbn [bind].
    rewrite generateCorsOptionsMethod_object. reflexivity.
  - intros m Hin Ht. rewrite Hget.
    assert (Hk : In m methods).
    { apply (filterM_Ok_In _ _ _ Hf). split; [assumption|].
      rewrite definesMethod_object. now rewrite Ht. }
    destruct (composed_get_kept _ _ _ _ _ _ _ _ Hm Hk) as (v & Hc & Hv).
    apply composeMethod_Ok_inv in Hc as (op & op' & Hop & Ha & [= <-]).
    injection Hop as <-. exists v. split; [assumption|].
    rewrite Hv. cbn [override].
    assert (Hdef : obj_in m o = true).
    { rewrite obj_in_get. unfold js_prop in Ht.
      destruct (obj_get m o); [reflexivity|discriminate]. }
    destruct (obj_in "options" o) eqn:Hopt, (corsOptions options) as [co|];
      try reflexivity.
    cbn [obj_get]. destruct (String.eqb_spec "options" m) as [<-|]; [congruence|].
    reflexivity.
  - intros m Hin Ht Hdef. rewrite Hget.
    rewrite (composed_get_None _ _ _ _ _ _ _ _ Hm).
    + cbn [override].
      destruct (obj_in "options" o) eqn:Hopt, (corsOptions options) as [co|];
        try (cbn [obj_get override]; reflexivity).
      cbn [obj_get]. destruct (String.eqb_spec "options" m) as [<-|]; [congruence|].
      reflexivity.
    + intros Hk. destruct (kept_method_is_defined o methods m Hf Hk) as [Ht' _].
      congruence.
Qed.

(** X6: without CORS options nothing CORS-related is added anywhere.  A
    composed path item object has exactly the properties of the original
    (no [options] method is synthesized), the headers of every response of
    a composed operation are exactly the author's, and the gateway response
    for a bad request body carries no response parameters. *)
Theorem without_cors_nothing_is_added options :
  corsOptions options = None ->
  (forall scope path o gon pathItem',
      preparePathSpec scope path (JObj o) options gon = Ok pathItem' ->
      forall k, obj_in k pathItem' = obj_in k o)
  /\ (forall scope path method operation gon operation' responses statusCode response,
        (forall a, obj_get "responses" (applyMethodAuthorizer a) = None) ->
        applyMethodIntegration scope path method options operation gon = Ok operation' ->
        js_member operation "responses" = Ok responses ->
        field statusCode responses = Some response ->
        exists authored merged,
          js_member response "headers" = Ok authored /\
          at_path ["responses"; statusCode; "headers"] operation' = Some (JObj merged) /\
          forall name, obj_get name merged = field name authored)
  /\ (forall scope spec document',
        prepareApiSpec scope spec options = Ok document' ->
        at_path [ "x-amazon-apigateway-gateway-responses";
                  ResponseType_BAD_REQUEST_BODY; "responseParameters" ]
                (JObj document') = None).
Proof.
  intros Hcors. split; [|split].
  - intros scope path o gon pathItem' Hp k.
    rewrite (composed_path_item_keys scope path o options gon pathItem' k Hp), Hcors.
    now rewrite andb_false_r, orb_false_r.
  - intros scope path method operation gon operation' responses statusCode response
           Hfrag Ha Hresp Hentry.
    apply applyMethodIntegration_Ok_inv in Ha
      as (effective & uri & responses' & rewritten & _ & _ & Hresp' & Hm & ->).
    rewrite Hresp in Hresp'. injection Hresp' as <-.
    rewrite Hcors in Hm.
    destruct (mapM_obj_get_Some _ _ _ _ _ (rewriteResponse_key None) Hm Hentry)
      as (response' & Hr & Hget).
    apply rewriteResponse_Ok_inv in Hr as (authored & Hauth & [= ->]).
    exists authored. eexists. split; [exact Hauth|]. split.
    + unfold at_path, field at 1. simpl own_entries.
      rewrite obj_get_object_literal. simpl. rewrite (Hfrag _). simpl.
      unfold field at 1. simpl own_entries.
      rewrite obj_get_fromEntries, Hget.
      unfold field. simpl own_entries.
      rewrite obj_get_object_literal. simpl. reflexivity.
    + intros name. rewrite obj_get_object_literal.
      cbn [fold_left member_get obj_get override]. unfold field, js_spread.
      apply override_None_l.
  - intros scope spec document' Hp.
    apply prepareApiSpec_Ok_inv in Hp as (paths & _ & _ & ->).
    cbn [at_path]. unfold field at 1. cbn [own_entries].
    rewrite obj_get_object_literal. cbn [fold_left member_get override].
    cbn [String.eqb Ascii.eqb Bool.eqb override].
    unfold gatewayResponses, field at 1. cbn [own_entries obj_get].
    rewrite String.eqb_refl, Hcors. reflexivity.
Qed.
End ComposedPathItem.

(** ** The composed operation *)

Lemma string_app_eqb (p a b : string) : (p ++ a =? p ++ b) = (a =? b).
Proof.
  induction p as [|c p IH]; [reflexivity|].
  cbn [append String.eqb]. now rewrite Ascii.eqb_refl.
Qed.

Lemma obj_get_map_keys {V : Type} (g : string -> string) k (o : list (string * V)) :
  (forall a b, (g a =? g b) = (a =? b)) ->
  obj_get (g k) (map (fun e => (g (fst e), snd e)) o) = obj_get k o.
Proof.
  intros Hg. induction o as [|[k' v] o IH]; [reflexivity|].
  cbn [map obj_get fst snd]. now rewrite IH, Hg.
Qed.

Section ComposedOperation.
Context `{Collaborators}.

(** X8: the [responses] of a composed operation has exactly the status
    codes of the original, and each response keeps every property other
    than [headers]; [headers] is always present afterwards, also when the
    author wrote none and CORS is off.  (The security fragment is taken not
    to carry a [responses] property.) *)
Theorem responses_are_rewritten_in_place
    scope path method options operation gon operation' responses :
  (forall a, obj_get "responses" (applyMethodAuthorizer a) = None) ->
  applyMethodIntegration scope path method options operation gon = Ok operation' ->
  js_member operation "responses" = Ok responses ->
  exists responses',
    field "responses" operation' = Some (JObj responses')
    /\ (forall statusCode,
          obj_in statusCode responses' = obj_in statusCode (own_entries responses))
    /\ (forall statusCode response,
          field statusCode responses = Some response ->
          exists response' headers,
            obj_get statusCode responses' = Some (JObj response')
            /\ obj_get "headers" response' = Some (JObj headers)
            /\ forall k, k <> "headers" -> obj_get k response' = field k response).
Proof.
  intros Hfrag Ha Hresp.
  apply applyMethodIntegration_Ok_inv in Ha
    as (effective & uri & responses0 & rewritten & _ & _ & Hresp0 & Hm & ->).
  rewrite Hresp in Hresp0. injection Hresp0 as <-.
  exists (fromEntries rewritten). split; [|split].
  - unfold field. cbn [own_entries]. rewrite obj_get_object_literal.
    cbn [fold_left member_get]. rewrite (Hfrag _). reflexivity.
  - intros statusCode. rewrite !obj_in_get, obj_get_fromEntries.
    destruct (obj_get statusCode (own_entries responses)) as [response|] eqn:Hin.
    + destruct (mapM_obj_get_Some _ _ _ _ _
                  (rewriteResponse_key (corsOptions options)) Hm Hin)
        as (v' & _ & ->). reflexivity.
    + now rewrite (mapM_obj_get_None _ _ _ _
                     (rewriteResponse_key (corsOptions options)) Hm Hin).
  - intros statusCode response Hin. unfold field in Hin.
    destruct (mapM_obj_get_Some _ _ _ _ _
                (rewriteResponse_key (corsOptions options)) Hm Hin)
      as (v' & Hr & Hv').
    apply rewriteResponse_Ok_inv in Hr as (authored & _ & [= ->]).
    eexists. eexists. split; [|split].
    + rewrite obj_get_fromEntries. exact Hv'.
    + rewrite obj_get_object_literal. cbn [fold_left member_get].
      rewrite String.eqb_refl. reflexivity.
    + intros k Hk. rewrite obj_get_object_literal. cbn [fold_left member_get].
      destruct (String.eqb_spec "headers" k); [congruence|].
      cbn [override]. apply override_None_l.
Qed.

(** X9: a composed operation carries as its
    [x-amazon-apigateway-integration] an [AWS_PROXY] integration invoked
    with [POST] (whatever the operation's own method, and whatever
    integration the author had written).  When the integrations mapping
    has an entry of its own under the operation's identifier, the [uri] is
    the invocation uri of that entry's function, and that function is in
    the list [getLabelledFunctions] returns, labelled by the identifier.
    Otherwise the identifier is a name the mapping inherits and the [uri]
    is the one [functionInvocationUri] computes from [undefined].  (The
    security fragment is taken not to carry an
    [x-amazon-apigateway-integration] property.) *)
Theorem operation_is_bound_to_its_labelled_function
    scope path method options operation gon operation' :
  (forall a, obj_get "x-amazon-apigateway-integration" (applyMethodAuthorizer a) = None) ->
  applyMethodIntegration scope path method options operation gon = Ok operation' ->
  exists uri,
    field "x-amazon-apigateway-integration" operation'
      = Some (JObj [ ("type", JStr "AWS_PROXY");
                     ("httpMethod", JStr "POST");
                     ("uri", JStr uri);
                     ("passthroughBehavior", JStr PassthroughBehavior_WHEN_NO_MATCH) ])
    /\ (forall integration,
          obj_get (ToPropertyKey (gon {| method := method; path := path |}))
                  (integrations options) = Some integration ->
          uri = functionInvocationUri scope (function integration)
          /\ In {| label := ToPropertyKey (gon {| method := method; path := path |});
                   lf_function := function integration |}
                (getLabelledFunctions options))
    /\ (obj_get (ToPropertyKey (gon {| method := method; path := path |}))
                (integrations options) = None ->
          inherited (ToPropertyKey (gon {| method := method; path := path |})) = true
          /\ functionInvocationUri_undefined scope = Some uri).
Proof.
  intros Hfrag Ha.
  apply applyMethodIntegration_Ok_inv in Ha
    as (effective & uri & responses & rewritten & Hown & Hinh & _ & _ & ->).
  exists uri. split; [|split].
  - unfold field. cbn [own_entries]. rewrite obj_get_object_literal.
    cbn [fold_left member_get]. rewrite (Hfrag _). reflexivity.
  - intros integration Hint. destruct (Hown _ Hint) as [_ ->].
    split; [reflexivity|].
    unfold getLabelledFunctions, getLabelledIntegrationFunctions.
    apply in_or_app. right. apply obj_get_In in Hint.
    apply in_map_iff. exists (ToPropertyKey (gon {| method := method; path := path |}),
                              integration).
    split; [reflexivity|assumption].
  - intros Hnone. destruct (Hinh Hnone) as (_ & Hu & Hi). auto.
Qed.

(** X10: rewriting a response that has already been rewritten under the
    same CORS setting changes nothing: it succeeds, every property other
    than [headers] is as it was, and [headers] defines exactly the same
    header names with the same definitions (no CORS header is added a
    second time). *)
Theorem header_merge_is_idempotent cors statusCode response statusCode' response' :
  rewriteResponse cors (statusCode, response) = Ok (statusCode', response') ->
  exists response'' headers' headers'',
    rewriteResponse cors (statusCode', response') = Ok (statusCode', response'')
    /\ (forall k, k <> "headers" -> field k response'' = field k response')
    /\ field "headers" response' = Some (JObj headers')
    /\ field "headers" response'' = Some (JObj headers'')
    /\ forall name, obj_get name headers'' = obj_get name headers'.
Proof.
  intros Hr. apply rewriteResponse_Ok_inv in Hr as (authored & Hauth & [= <- ->]).
  set (defs := match cors with Some _ => getCorsHeaderDefinitions | None => [] end).
  set (headers' := object_literal [ Spread defs; Spread (js_spread authored) ]).
  set (response' := object_literal [ Spread (js_spread response);
                                     KV "headers" (JObj headers') ]).
  assert (Hh : obj_get "headers" response' = Some (JObj headers')).
  { unfold response'. rewrite obj_get_object_literal. cbn [fold_left member_get].
    rewrite String.eqb_refl. reflexivity. }
  exists (JObj (object_literal
            [ Spread (js_spread (JObj response'));
              KV "headers" (JObj (object_literal
                [ Spread defs; Spread (js_spread (JObj headers')) ])) ])),
         headers',
         (object_literal [ Spread defs; Spread (js_spread (JObj headers')) ]).
  split; [|split; [|split; [|split]]].
  - assert (Hm : js_member (JObj response') "headers" = Ok (JObj headers')).
    { cbn [js_member]. unfold js_prop. now rewrite Hh. }
    change (rewriteResponse cors (statusCode', JObj response')
            = Ok (statusCode',
                  JObj (object_literal
                    [ Spread (js_spread (JObj response'));
                      KV "headers" (JObj (object_literal
                        [ Spread defs; Spread (js_spread (JObj headers')) ])) ]))).
    unfold rewriteResponse. cbv beta iota. rewrite Hm. reflexivity.
  - intros k Hk. unfold field. cbn [own_entries].
    rewrite obj_get_object_literal. cbn [fold_left member_get js_spread own_entries].
    destruct (String.eqb_spec "headers" k); [congruence|].
    cbn [override]. apply override_None_l.
  - exact Hh.
  - unfold field. cbn [own_entries]. rewrite obj_get_object_literal.
    cbn [fold_left member_get]. rewrite String.eqb_refl. reflexivity.
  - intros name. unfold headers'. rewrite !obj_get_object_literal.
    cbn [fold_left member_get js_spread own_entries].
    rewrite obj_get_object_literal. cbn [fold_left member_get].
    rewrite !override_None_l.
    destruct (obj_get name (js_spread authored)), (obj_get name defs); reflexivity.
Qed.

(** X11: the response parameters are the response header values under
    prefixed names: for every header name, the parameter
    [<prefix>.<name>] holds exactly what the header [name] holds (nothing
    when there is no such header), and every parameter arises this way,
    whatever the prefix. *)
Theorem response_parameters_are_prefixed_headers corsOptions prefix :
  (forall name,
      obj_get (prefix ++ "." ++ name) (generateCorsResponseParameters corsOptions prefix)
      = obj_get name (generateCorsResponseHeaders corsOptions))
  /\ (forall parameter value,
        obj_get parameter (generateCorsResponseParameters corsOptions prefix)
          = Some value ->
        exists name,
          parameter = prefix ++ "." ++ name
          /\ obj_get name (generateCorsResponseHeaders corsOptions) = Some value).
Proof.
  unfold generateCorsResponseParameters. split.
  - intros name. rewrite obj_get_fromEntries.
    apply (obj_get_map_keys (fun h => prefix ++ "." ++ h)).
    intros a b. now rewrite !string_app_eqb.
  - intros parameter value Hp. rewrite obj_get_fromEntries in Hp.
    apply obj_get_In in Hp. apply in_map_iff in Hp as ([name v] & [= <- <-] & Hin).
    exists name. split; [reflexivity|].
    unfold generateCorsResponseHeaders in *. cbn [In] in Hin.
    destruct Hin as [[= <- <-] | [[= <- <-] | [[= <- <-] | []]]]; reflexivity.
Qed.
End ComposedOperation.

(** ** Lookups in the reverse index *)

Section ReverseIndexLookup.
Context `{Collaborators}.

Lemma getOperationName_entries options mp :
  getOperationName options mp
  = obj_get (concatMethodAndPath mp)
            (map (fun e => (concatMethodAndPath (snd e), fst e)) (operationLookup options)).
Proof.
  unfold getOperationName, operationNameByPath. apply obj_get_fromEntries.
Qed.

(** X12: what the reverse index answers.  An identifier it returns for a
    (method, path) is the identifier of an entry of [operationLookup] that
    concatenates to the same key; it returns nothing exactly when no entry
    does; and when the entries concatenating to the key of an entry all
    carry that entry's identifier (the lookup is injective there), looking
    the entry's method and path up gives its identifier back. *)
Theorem reverse_index_lookup options mp :
  (forall id, getOperationName options mp = Some id ->
     exists mp0, In (id, mp0) (operationLookup options)
                 /\ concatMethodAndPath mp0 = concatMethodAndPath mp)
  /\ (getOperationName options mp = None
      <-> forall e, In e (operationLookup options) ->
                    concatMethodAndPath (snd e) <> concatMethodAndPath mp)
  /\ (forall id,
        In (id, mp) (operationLookup options) ->
        (forall id' mp', In (id', mp') (operationLookup options) ->
                         concatMethodAndPath mp' = concatMethodAndPath mp -> id' = id) ->
        getOperationName options mp = Some id).
Proof.
  rewrite getOperationName_entries.
  assert (Hsound : forall id,
             obj_get (concatMethodAndPath mp)
               (map (fun e => (concatMethodAndPath (snd e), fst e))
                    (operationLookup options)) = Some id ->
             exists mp0, In (id, mp0) (operationLookup options)
                         /\ concatMethodAndPath mp0 = concatMethodAndPath mp).
  { intros id Hg. apply obj_get_In in Hg.
    apply in_map_iff in Hg as ([id0 mp0] & [= Hk <-] & Hin). eauto. }
  assert (Hnone : obj_get (concatMethodAndPath mp)
               (map (fun e => (concatMethodAndPath (snd e), fst e))
                    (operationLookup options)) = None
            <-> forall e, In e (operationLookup options) ->
                          concatMethodAndPath (snd e) <> concatMethodAndPath mp).
  { split.
    - intros Hg [id0 mp0] Hin Hk. cbn [snd] in Hk.
      apply obj_in_false_get in Hg.
      rewrite (obj_in_In (concatMethodAndPath mp) id0) in Hg; [discriminate|].
      apply in_map_iff. exists (id0, mp0). cbn [fst snd]. now rewrite Hk.
    - intros Hall. apply obj_get_no_key.
      intros e He. apply in_map_iff in He as (e0 & <- & He0). cbn [fst].
      now apply Hall. }
  split; [exact Hsound|]. split; [exact Hnone|].
  intros id Hin Hinj.
  destruct (obj_get (concatMethodAndPath mp) _) as [id'|] eqn:Hg.
  - destruct (Hsound id' eq_refl) as (mp0 & Hin0 & Hk0).
    now rewrite (Hinj id' mp0 Hin0 Hk0).
  - exfalso. apply (proj1 Hnone eq_refl (id, mp) Hin). reflexivity.
Qed.
End ReverseIndexLookup.

(** ** Which exception is reported *)

Lemma mapM_Throw_first {A B : Type} (f : A -> result B) l e :
  mapM f l = Throw e
  <-> exists before x after,
        l = (before ++ x :: after)%list
        /\ (forall y, In y before -> exists v, f y = Ok v)
        /\ f x = Throw e.
Proof.
  split.
  - induction l as [|x l IH]; simpl; [discriminate|].
    intros Hm. apply bind_Throw_inv in Hm as [Hx | (y & Hy & Hm)].
    + exists [], x, l. repeat split; [|assumption]. intros z [].
    + apply bind_Throw_inv in Hm as [Hl | (ys & _ & Hm)]; [|discriminate].
      destruct (IH Hl) as (before & x' & after & -> & Hb & Hx').
      exists (x :: before), x', after. repeat split; [|assumption].
      intros z [<- | Hz]; eauto.
  - intros (before & x & after & -> & Hb & Hx).
    induction before as [|z before IH]; simpl.
    + now rewrite Hx.
    + destruct (Hb z (or_introl eq_refl)) as (v & ->). simpl.
      rewrite IH by (intros w Hw; apply Hb; now right). reflexivity.
Qed.

Lemma filterM_definesMethod_object o l :
  filterM (definesMethod (JObj o)) l = Ok (filter (fun m => truthy (js_prop o m)) l).
Proof.
  induction l as [|m l IH]; [reflexivity|].
  cbn [filterM filter]. rewrite definesMethod_object, IH. cbn [bind].
  now destruct (truthy (js_prop o m)).
Qed.

Section FirstFailure.
Context `{Collaborators}.

Lemma composeMethod_object scope path o options gon m :
  composeMethod scope path (JObj o) options gon m
  = (operation' <- applyMethodIntegration scope path m options (js_prop o m) gon ;;
     Ok (m, operation')).
Proof. reflexivity. Qed.

(** X13: the exception the caller sees is that of the first operation that
    fails.  For a path item object it is the exception of the first method,
    in the order get, put, post, delete, options, head, patch, trace of the
    methods holding a truthy value, whose composition throws; for a
    document whose [paths] is not nullish it is the exception of the first
    path, in the enumeration order of [paths], whose composition throws.
    Later operations are not examined. *)
Theorem first_failure_is_reported :
  (forall scope path o options gon e,
      preparePathSpec scope path (JObj o) options gon = Throw e
      <-> exists before m after,
            filter (fun m => truthy (js_prop o m)) HttpMethods
              = (before ++ m :: after)%list
            /\ (forall m', In m' before ->
                  exists operation',
                    applyMethodIntegration scope path m' options (js_prop o m') gon
                      = Ok operation')
            /\ applyMethodIntegration scope path m options (js_prop o m) gon = Throw e)
  /\ (forall scope spec options e,
        nullish (js_prop spec "paths") = false ->
        (prepareApiSpec scope spec options = Throw e
         <-> exists before entry after,
               own_entries (js_prop spec "paths") = (before ++ entry :: after)%list
               /\ (forall x, In x before ->
                     exists pathItem',
                       preparePathSpec scope (fst x) (snd x) options
                         (getOperationName options) = Ok pathItem')
               /\ preparePathSpec scope (fst entry) (snd entry) options
                    (getOperationName options) = Throw e)).
Proof.
  split.
  - intros scope path o options gon e. unfold preparePathSpec.
    rewrite filterM_definesMethod_object. cbn [bind].
    rewrite generateCorsOptionsMethod_object.
    set (methods := filter (fun m => truthy (js_prop o m)) HttpMethods).
    split.
    + intros Hp. apply bind_Throw_inv in Hp as [Hm | (composed & _ & Hp)];
        [|discriminate].
      apply mapM_Throw_first in Hm as (before & m & after & Hl & Hb & Hm).
      exists before, m, after. split; [exact Hl|]. split.
      * intros m' Hm'. destruct (Hb m' Hm') as (v & Hv).
        rewrite composeMethod_object in Hv.
        apply bind_Ok_inv in Hv as (op' & Ha & _). eauto.
      * rewrite composeMethod_object in Hm.
        apply bind_Throw_inv in Hm as [Ha | (op' & _ & Hm)]; [assumption|discriminate].
    + intros (before & m & after & Hl & Hb & Hm).
      assert (Hthrow : mapM (composeMethod scope path (JObj o) options gon) methods
                       = Throw e).
      { apply mapM_Throw_first. exists before, m, after. split; [exact Hl|]. split.
        - intros m' Hm'. destruct (Hb m' Hm') as (op' & Ha).
          rewrite composeMethod_object, Ha. cbn [bind]. eauto.
        - rewrite composeMethod_object, Hm. reflexivity. }
      now rewrite Hthrow.
  - intros scope spec options e Hpaths. unfold prepareApiSpec.
    rewrite Object_entries_nullish, Hpaths. cbn [bind].
    split.
    + intros Hp. apply bind_Throw_inv in Hp as [Hm | (paths & _ & Hp)];
        [|discriminate].
      apply mapM_Throw_first in Hm as (before & entry & after & Hl & Hb & Hm).
      exists before, entry, after. split; [exact Hl|]. split.
      * intros x Hx. destruct (Hb x Hx) as (v & Hv). unfold composePath in Hv.
        apply bind_Ok_inv in Hv as (pathItem' & Hpath & _). eauto.
      * unfold composePath in Hm.
        apply bind_Throw_inv in Hm as [Hpath | (pathItem' & _ & Hm)];
          [assumption|discriminate].
    + intros (before & entry & after & Hl & Hb & Hm).
      assert (Hthrow : mapM (composePath scope options)
                            (own_entries (js_prop spec "paths")) = Throw e).
      { apply mapM_Throw_first. exists before, entry, after. split; [exact Hl|]. split.
        - intros x Hx. destruct (Hb x Hx) as (pathItem' & Hpath).
          unfold composePath. rewrite Hpath. cbn [bind]. eauto.
        - unfold composePath. rewrite Hm. reflexivity. }
      now rewrite Hthrow.
Qed.

(** X14: a path item for which the preflight method was generated cannot
    be composed a second time with the same options unless the identifier
    of its [options] operation names a property of the integrations
    mapping, own or inherited: on the second pass the synthetic method is
    an operation like any other and has to get past the
    missing-integration guard. *)
Theorem recomposition_needs_options_integration
    scope path o options gon co pathItem' :
  corsOptions options = Some co ->
  obj_in "options" o = false ->
  preparePathSpec scope path (JObj o) options gon = Ok pathItem' ->
  has_property (ToPropertyKey (gon {| method := "options"; path := path |}))
               (integrations options) = false ->
  exists e, preparePathSpec scope path (JObj pathItem') options gon = Throw e.
Proof.
  intros Hco Hin Hp Hmissing.
  assert (Hopt : obj_get "options" pathItem' = Some (JObj (corsOptionsOperation co))).
  { apply preparePathSpec_Ok_inv in Hp as (methods & composed & cors & _ & _ & Hg & ->).
    rewrite generateCorsOptionsMethod_object, Hin, Hco in Hg. injection Hg as <-.
    rewrite obj_get_object_literal. cbn [fold_left member_get]. reflexivity. }
  apply (preparePathSpec_throws scope path (JObj pathItem') options gon "options"
           (JObj (corsOptionsOperation co))
           (Error (missing_integration_message
                     (gon {| method := "options"; path := path |}) "options" path))).
  - cbn. tauto.
  - cbn [js_member]. unfold js_prop. now rewrite Hopt.
  - reflexivity.
  - now apply applyMethodIntegration_missing.
Qed.
End FirstFailure.

(** ** The files of the website project *)

Lemma reduceM_Ok_inv {A B : Type} (f : B -> A -> result B) x l init r :
  reduceM f (x :: l) init = Ok r -> exists acc, f init x = Ok acc /\ reduceM f l acc = Ok r.
Proof. cbn [reduceM]. intros Hr. now apply bind_Ok_inv in Hr. Qed.

Lemma string_app_nil_r (s : string) : s ++ EmptyString = s.
Proof. induction s as [|c s IH]; [reflexivity|]. cbn [append]. now rewrite IH. Qed.

Lemma string_app_assoc (a b c : string) : (a ++ b) ++ c = a ++ (b ++ c).
Proof. induction a as [|x a IH]; [reflexivity|]. cbn [append]. now rewrite IH. Qed.

Lemma prefix_app pattern rest : prefix pattern (pattern ++ rest) = true.
Proof.
  induction pattern as [|c pattern IH]; [now destruct rest|].
  cbn [append prefix]. destruct (ascii_dec c c); [assumption|congruence].
Qed.

Lemma string_drop_app pattern rest :
  string_drop (String.length pattern) (pattern ++ rest) = rest.
Proof. induction pattern as [|c pattern IH]; [reflexivity|assumption]. Qed.

Lemma split_at_first_unfold pattern s :
  split_at_first pattern s
  = if prefix pattern s
    then Some (EmptyString, string_drop (String.length pattern) s)
    else match s with
         | EmptyString => None
         | String c s' =>
             match split_at_first pattern s' with
             | Some (before, after) => Some (String c before, after)
             | None => None
             end
         end.
Proof. now destruct s. Qed.

(** The split found is the one at the first occurrence. *)
Lemma split_at_first_app pattern before after :
  (forall b1 c b2, before = b1 ++ String c b2 ->
     prefix pattern (String c b2 ++ pattern ++ after) = false) ->
  split_at_first pattern (before ++ pattern ++ after) = Some (before, after).
Proof.
  induction before as [|c before IH]; intros Hfirst.
  - cbn [append]. rewrite split_at_first_unfold, prefix_app, string_drop_app.
    reflexivity.
  - rewrite split_at_first_unfold.
    rewrite (Hfirst EmptyString c before eq_refl). cbn [append].
    rewrite IH; [reflexivity|].
    intros b1 d b2 ->. apply (Hfirst (String c b1) d b2). reflexivity.
Qed.

Lemma split_at_first_absent pattern s :
  (forall s1 s2, s = s1 ++ s2 -> prefix pattern s2 = false) ->
  split_at_first pattern s = None.
Proof.
  induction s as [|c s IH]; intros Habsent; rewrite split_at_first_unfold.
  - now rewrite (Habsent EmptyString EmptyString eq_refl).
  - rewrite (Habsent EmptyString (String c s) eq_refl).
    rewrite IH; [reflexivity|].
    intros s1 s2 ->. apply (Habsent (String c s1) s2). reflexivity.
Qed.

Lemma dollar_free_cons c s :
  dollar_free (String c s) = negb (Ascii.eqb c "$") && dollar_free s.
Proof. reflexivity. Qed.

Lemma dollar_free_app a b : dollar_free (a ++ b) = dollar_free a && dollar_free b.
Proof.
  induction a as [|c a IH]; [reflexivity|].
  cbn [append]. rewrite !dollar_free_cons, IH. apply andb_assoc.
Qed.

(** Text without a dollar sign is copied as it is. *)
Lemma get_substitution_app matched before after a replacement :
  dollar_free a = true ->
  get_substitution matched before after (a ++ replacement)
  = a ++ get_substitution matched before after replacement.
Proof.
  induction a as [|c a IH]; intros Hfree; [reflexivity|].
  rewrite dollar_free_cons in Hfree. apply andb_true_iff in Hfree as [Hc Ha].
  apply negb_true_iff in Hc. cbn [append get_substitution]. rewrite Hc.
  now rewrite IH.
Qed.

Lemma get_substitution_dollar_free matched before after replacement :
  dollar_free replacement = true ->
  get_substitution matched before after replacement = replacement.
Proof.
  intros Hfree.
  rewrite <- (string_app_nil_r replacement) at 1.
  rewrite get_substitution_app by assumption. cbn [get_substitution].
  apply string_app_nil_r.
Qed.

Section WebsiteFacts.
Context `{NodeFs}.

Lemma sample_files_reduce srcDir l init files :
  reduceM (fun prev curr =>
             content <- readFileSync (srcDir ++ "/" ++ curr) ;;
             Ok (object_literal [ Spread prev; KV curr content ]))
          l init = Ok files ->
  (forall f, In f l ->
     exists content,
       readFileSync (srcDir ++ "/" ++ f) = Ok content /\ obj_get f files = Some content)
  /\ (forall f, ~ In f l -> obj_get f files = obj_get f init).
Proof.
  revert init. induction l as [|x l IH]; intros init Hr.
  - injection Hr as <-. split; [intros f []|reflexivity].
  - apply reduceM_Ok_inv in Hr as (acc & Hstep & Hr).
    apply bind_Ok_inv in Hstep as (content & Hread & [= <-]).
    destruct (IH _ Hr) as [Hin Hout].
    assert (Hacc : forall f,
               obj_get f (object_literal [ Spread init; KV x content ])
               = if x =? f then Some content else obj_get f init).
    { intros f. rewrite obj_get_object_literal. cbn [fold_left member_get].
      rewrite override_None_l. now destruct (x =? f). }
    split.
    + intros f Hf. destruct (in_dec string_dec f l) as [Hl|Hl]; [now apply Hin|].
      destruct Hf as [<- | Hf]; [|contradiction].
      exists content. split; [assumption|].
      rewrite (Hout x Hl), Hacc. now rewrite String.eqb_refl.
    + intros f Hf. rewrite (Hout f); [|intros Hl; apply Hf; now right].
      rewrite Hacc. destruct (String.eqb_spec x f) as [->|]; [|reflexivity].
      exfalso. apply Hf. now left.
Qed.

(** X15: when the source files of the website project can be assembled,
    [config.json] is the generated one (the application name, [Sample App]
    by default, passed through [JSON.stringify]) even if the sample
    directory has a [config.json] of its own; every other file the
    directory lists is there with the content read from it; and there is no
    other file. *)
Theorem sample_source_files srcDir options names files :
  readdirSync srcDir = Ok names ->
  sampleSourceFiles srcDir options = Ok files ->
  obj_get "config.json" files
    = Some (JSON_stringify
              (JObj [("applicationName",
                       JStr (match applicationName options with
                             | Some name => name
                             | None => "Sample App"
                             end))]))
  /\ (forall f, f <> "config.json" -> In f names ->
        exists content,
          readFileSync (srcDir ++ "/" ++ f) = Ok content
          /\ obj_get f files = Some content)
  /\ (forall f, f <> "config.json" -> ~ In f names -> obj_get f files = None).
Proof.
  intros Hdir Hs. unfold sampleSourceFiles in Hs. rewrite Hdir in Hs. cbn [bind] in Hs.
  apply bind_Ok_inv in Hs as (files0 & Hr & [= <-]).
  apply sample_files_reduce in Hr as [Hin Hout].
  assert (Hget : forall f, obj_get f (object_literal [ Spread files0 ]) = obj_get f files0).
  { intros f. rewrite obj_get_object_literal. cbn [fold_left member_get].
    apply override_None_l. }
  split; [|split].
  - rewrite Hget, Hout; [reflexivity|].
    intros Hf. apply filter_In in Hf as [_ Hf]. discriminate.
  - intros f Hne Hf. rewrite Hget. apply Hin. apply filter_In. split; [assumption|].
    apply negb_true_iff. now apply String.eqb_neq.
  - intros f Hne Hf. rewrite Hget, Hout.
    + cbn [obj_get]. destruct (String.eqb_spec "config.json" f); [congruence|reflexivity].
    + intros Hl. apply filter_In in Hl as [Hl _]. contradiction.
Qed.

(** X16: the title of the generated [index.html].  When the application
    name ([Sample App] by default) has no dollar sign, the first empty
    title element of the sample page receives the name as it is and the
    rest of the page is untouched; a page without an empty title element is
    copied unchanged.  A dollar sign is not copied blindly: the name goes
    through the replacement patterns of [String.prototype.replace], so that
    [$&] in it becomes the text of the matched empty title element. *)
Theorem index_html_title publicDirPath options html :
  readFileSync (publicDirPath ++ "/index.html") = Ok html ->
  (forall before after,
      html = before ++ "<title></title>" ++ after ->
      (forall b1 c b2, before = b1 ++ String c b2 ->
         prefix "<title></title>" (String c b2 ++ "<title></title>" ++ after) = false) ->
      (dollar_free (project_applicationName options) = true ->
       sampleIndexHtml publicDirPath options
       = Ok (before ++ "<title>" ++ project_applicationName options ++ "</title>"
                    ++ after))
      /\ (forall a b,
            project_applicationName options = a ++ "$&" ++ b ->
            dollar_free a = true -> dollar_free b = true ->
            sampleIndexHtml publicDirPath options
            = Ok (before ++ "<title>" ++ a ++ "<title></title>" ++ b ++ "</title>"
                         ++ after)))
  /\ ((forall s1 s2, html = s1 ++ s2 -> prefix "<title></title>" s2 = false) ->
      sampleIndexHtml publicDirPath options = Ok html).
Proof.
  intros Hread. unfold sampleIndexHtml, js_replace. rewrite Hread. cbn [bind].
  split.
  - intros before after -> Hfirst.
    rewrite (split_at_first_app _ _ _ Hfirst).
    split.
    + intros Hfree. rewrite get_substitution_dollar_free.
      * now rewrite !string_app_assoc.
      * rewrite !dollar_free_app, Hfree. reflexivity.
    + intros a b -> Ha Hb.
      rewrite (get_substitution_app _ _ _ "<title>") by reflexivity.
      rewrite !string_app_assoc.
      rewrite (get_substitution_app _ _ _ a) by assumption.
      change ("$&" ++ b ++ "</title>") with (String "$" (String "&" (b ++ "</title>"))).
      cbn [get_substitution Ascii.eqb Bool.eqb].
      rewrite get_substitution_dollar_free
        by (rewrite dollar_free_app, Hb; reflexivity).
      now rewrite !string_app_assoc.
  - intros Habsent. now rewrite (split_at_first_absent _ _ Habsent).
Qed.
End WebsiteFacts.

(** ** Runs on the sample documents *)

Import Reference.

Lemma security_fragment_keys (a : authorizer_variant) k :
  obj_in k (security_fragment a) = true -> k = "security".
Proof.
  destruct a; unfold security_fragment, obj_in, existsb, fst;
    rewrite orb_false_r; intros Hk; apply String.eqb_eq in Hk; auto.
Qed.

Lemma security_fragment_responses (a : authorizer_variant) :
  obj_get "responses" (security_fragment a) = None.
Proof. now destruct a. Qed.

(** C6: on the sample document, with no lookup entry for [get /hello] and
    an integrations mapping holding the key [undefined], the failed name
    lookup is not fatal: the transform returns a document in which the
    operation is bound to the function registered under [undefined]. *)
Theorem unresolved_name_falls_back_to_undefined_key :
  getOperationName orphan_options get_hello = None
  /\ exists document',
       prepareApiSpec scope document orphan_options = Ok document'
       /\ at_path [ "paths"; "/hello"; "get"; "x-amazon-apigateway-integration"; "uri" ]
                  (JObj document')
          = Some (JStr (invocation_uri scope "fallbackFn")).
Proof.
  split; [reflexivity|].
  eexists. split; reflexivity.
Qed.

(** The sample operation goes by the name [toString] and the integrations
    mapping is empty: the guard lets the operation pass, no [Error] is
    thrown for it, and the transform returns a document in which the
    operation is bound to the uri computed from [undefined]. *)
Lemma missing_integration_guard_witness :
  getOperationName inherited_name get_hello = Some "toString"
  /\ integrations inherited_name = []
  /\ (forall msg,
        applyMethodIntegration scope "/hello" "get" inherited_name (JObj sayHello)
          (getOperationName inherited_name) <> Throw (Error msg))
  /\ exists document',
       prepareApiSpec scope document inherited_name = Ok document'
       /\ at_path [ "paths"; "/hello"; "get"; "x-amazon-apigateway-integration"; "uri" ]
                  (JObj document')
          = Some (JStr (invocation_uri scope "undefined")).
Proof.
  destruct (missing_integration_guard scope document inherited_name
              "/hello" (JObj helloItem) "get" (JObj sayHello))
    as (_ & Hpass & _).
  - simpl. left. reflexivity.
  - simpl. left. reflexivity.
  - reflexivity.
  - reflexivity.
  - reflexivity.
  - destruct (Hpass eq_refl) as [_ Hnever].
    split; [reflexivity|]. split; [reflexivity|]. split; [exact Hnever|].
    eexists. split; reflexivity.
Defined.

(** The author's Access-Control-Allow-Origin survives the merge and the
    missing Access-Control-Allow-Methods is added. *)
Lemma cors_header_merge_is_additive_witness :
  exists operation' authored merged,
    applyMethodIntegration scope "/hello" "get" options (JObj sayHello)
      (getOperationName options) = Ok operation'
    /\ js_member hello_response "headers" = Ok authored
    /\ at_path ["responses"; "200"; "headers"] operation' = Some (JObj merged)
    /\ obj_get "Access-Control-Allow-Origin" merged
         = Some (JObj [("description", JStr "mine")])
    /\ obj_get "Access-Control-Allow-Methods" merged
         = Some (JObj [("schema", JObj [("type", JStr "string")])]).
Proof.
  destruct (applyMethodIntegration scope "/hello" "get" options (JObj sayHello)
              (getOperationName options)) as [operation'|e] eqn:Ha;
    [|vm_compute in Ha; discriminate].
  destruct (@cors_header_merge_is_additive handles collaborators
              scope "/hello" "get" options (JObj sayHello)
              (getOperationName options) any_origin operation' hello_responses
              "200" hello_response eq_refl security_fragment_responses Ha
              eq_refl eq_refl)
    as (authored & merged & Hauth & Hpath & Hkeep & Hadd & _).
  exists operation', authored, merged.
  split; [reflexivity|]. split; [exact Hauth|]. split; [exact Hpath|].
  injection Hauth as <-.
  split.
  - apply Hkeep. reflexivity.
  - apply Hadd; [reflexivity|]. simpl. right. left. reflexivity.
Defined.




Lemma reverse_index_last_write_wins_witness :
  getOperationName colliding_lookup get_hello = Some "greet".
Proof.
  apply (proj1 (reverse_index_last_write_wins colliding_lookup
                  [] "sayHello" get_hello [] "greet" get_hello []
                  eq_refl eq_refl (fun e (He : In e []) => match He with end))).
Defined.

(** With an empty origin list the transform returns a document whose
    preflight response sets Access-Control-Allow-Origin to the empty quoted
    literal. *)
Lemma empty_origins_counterexample :
  allowOrigins no_origins = []
  /\ exists document',
       prepareApiSpec scope document (with_cors options no_origins) = Ok document'
       /\ at_path [ "paths"; "/hello"; "options"; "x-amazon-apigateway-integration";
                    "responses"; "default"; "responseParameters";
                    "method.response.header.Access-Control-Allow-Origin" ]
                  (JObj document')
          = Some (JStr "''").
Proof.
  split; [reflexivity|].
  eexists. split; reflexivity.
Qed.

Lemma empty_origins_not_rejected_witness :
  obj_get "Access-Control-Allow-Origin" (generateCorsResponseHeaders no_origins)
    = Some "''"
  /\ same_outcome (prepareApiSpec scope document (with_cors options no_origins))
                  (prepareApiSpec scope document (with_cors options any_origin)).
Proof.
  destruct (empty_origins_not_rejected scope document options no_origins any_origin
              eq_refl) as (Hvalue & Hsame & _).
  split; [exact Hvalue|exact Hsame].
Defined.

(** One function serving two operations is listed twice. *)
Lemma shared_function_counterexample :
  count_occ string_dec (map lf_function (getLabelledFunctions shared_function))
            "sharedFn" = 2%nat
  /\ ~ NoDup (map lf_function (getLabelledFunctions shared_function)).
Proof.
  split; [reflexivity|].
  intros Hnodup. inversion Hnodup as [|f l Hnotin _]; subst.
  apply Hnotin. left. reflexivity.
Qed.

Lemma composition_preserves_other_fields_witness :
  exists operation' pathItem',
    applyMethodIntegration scope "/hello" "get" options (JObj sayHello)
      (getOperationName options) = Ok operation'
    /\ field "operationId" operation' = Some (JStr "sayHello")
    /\ preparePathSpec scope "/hello" (JObj helloItem) options
         (getOperationName options) = Ok pathItem'
    /\ obj_get "parameters" pathItem' = obj_get "parameters" helloItem.
Proof.
  destruct (applyMethodIntegration scope "/hello" "get" options (JObj sayHello)
              (getOperationName options)) as [operation'|e] eqn:Ha;
    [|vm_compute in Ha; discriminate].
  destruct (preparePathSpec scope "/hello" (JObj helloItem) options
              (getOperationName options)) as [pathItem'|e] eqn:Hp;
    [|vm_compute in Hp; discriminate].
  destruct (@composition_preserves_other_fields handles collaborators
              security_fragment_keys)
    as [Hoperation HpathItem].
  exists operation', pathItem'.
  split; [reflexivity|]. split; [|split; [reflexivity|]].
  - rewrite (Hoperation _ _ _ _ _ _ _ Ha "operationId"); [reflexivity|..];
      intros Hk; discriminate Hk.
  - rewrite (HpathItem _ _ _ _ _ _ Hp "parameters"); [reflexivity|].
    simpl. intros Hk. repeat (destruct Hk as [Hk|Hk]; [discriminate Hk|]). exact Hk.
Defined.

(** The sample options supply IAM as the default authorizer; the generated
    preflight operation is the synthetic one all the same. *)
Lemma preflight_carries_no_authorizer_witness :
  defaultAuthorizer options = Some IamAuthorizer
  /\ exists pathItem',
       preparePathSpec scope "/hello" (JObj helloItem) options
         (getOperationName options) = Ok pathItem'
       /\ obj_get "options" pathItem' = Some (JObj (corsOptionsOperation any_origin))
       /\ field "security" (JObj (corsOptionsOperation any_origin)) = None.
Proof.
  split; [reflexivity|].
  destruct (preparePathSpec scope "/hello" (JObj helloItem) options
              (getOperationName options)) as [pathItem'|e] eqn:Hp;
    [|vm_compute in Hp; discriminate].
  destruct (preflight_carries_no_authorizer scope "/hello" (JObj helloItem) options
              (getOperationName options) any_origin pathItem' eq_refl eq_refl Hp)
    as (Hoptions & _ & Hsecurity & _).
  exists pathItem'. split; [reflexivity|]. split; [exact Hoptions|exact Hsecurity].
Defined.

(** An operation with an integration but without [responses] cannot be
    composed. *)
Lemma method_composition_outcome_witness :
  applyMethodIntegration scope "/hello" "get" options no_responses
    (getOperationName options) = Throw TypeError.
Proof.
  apply (proj1 (proj2 (proj2 (method_composition_outcome scope "/hello" "get" options
                                no_responses (getOperationName options)))));
    reflexivity.
Defined.

Lemma document_composition_succeeds_iff_witness :
  exists document', prepareApiSpec scope document options = Ok document'.
Proof.
  apply (proj2 (document_composition_succeeds_iff scope document options)).
  split; [reflexivity|].
  intros path pathItem Hin. simpl in Hin. destruct Hin as [[= <- <-] | []].
  split; [eexists; reflexivity|].
  intros method operation Hm Hop Ht. simpl in Hm.
  repeat (destruct Hm as [<- | Hm];
          [vm_compute in Hop; injection Hop as <-;
           first [discriminate Ht | split; reflexivity]|]).
  destruct Hm.
Defined.

Lemma document_paths_are_composed_witness :
  exists document' paths',
    prepareApiSpec scope document options = Ok document'
    /\ obj_get "paths" document' = Some (JObj paths')
    /\ obj_in "/hello" paths' = true
    /\ obj_in "/goodbye" paths' = false.
Proof.
  destruct (prepareApiSpec scope document options) as [document'|e] eqn:Hp;
    [|vm_compute in Hp; discriminate].
  destruct (document_paths_are_composed scope document options document' Hp)
    as (paths' & Hpaths & Hkeys & _).
  exists document', paths'. split; [reflexivity|]. split; [exact Hpaths|].
  rewrite !Hkeys. split; reflexivity.
Defined.

Lemma document_top_level_frame_witness :
  exists document',
    prepareApiSpec scope document options = Ok document'
    /\ obj_get "openapi" document' = Some (JStr "3.0.3").
Proof.
  destruct (prepareApiSpec scope document options) as [document'|e] eqn:Hp;
    [|vm_compute in Hp; discriminate].
  destruct (document_top_level_frame scope document options document' Hp)
    as (Hframe & _).
  exists document'. split; [reflexivity|].
  rewrite Hframe; [reflexivity|].
  simpl. intros Hk. repeat (destruct Hk as [Hk|Hk]; [discriminate Hk|]). exact Hk.
Defined.

Lemma document_components_witness :
  exists document' components',
    prepareApiSpec scope document options = Ok document'
    /\ obj_get "components" document' = Some (JObj components')
    /\ obj_get "securitySchemes" components' = Some (security_schemes scope options).
Proof.
  destruct (prepareApiSpec scope document options) as [document'|e] eqn:Hp;
    [|vm_compute in Hp; discriminate].
  destruct (document_components scope document options document' Hp)
    as (components' & Hc & Hs & _).
  exists document', components'. split; [reflexivity|]. split; [exact Hc|exact Hs].
Defined.

Lemma without_cors_nothing_is_added_witness :
  exists pathItem',
    preparePathSpec scope "/hello" (JObj helloItem) plain_options
      (getOperationName plain_options) = Ok pathItem'
    /\ obj_in "options" pathItem' = false.
Proof.
  destruct (preparePathSpec scope "/hello" (JObj helloItem) plain_options
              (getOperationName plain_options)) as [pathItem'|e] eqn:Hp;
    [|vm_compute in Hp; discriminate].
  destruct (without_cors_nothing_is_added plain_options eq_refl) as (Hkeys & _).
  exists pathItem'. split; [reflexivity|].
  rewrite (Hkeys _ _ _ _ _ Hp). reflexivity.
Defined.

Lemma path_item_composition_witness :
  exists pathItem',
    preparePathSpec scope "/hello" (JObj helloItem) options
      (getOperationName options) = Ok pathItem'
    /\ obj_in "options" pathItem' = true
    /\ obj_in "put" pathItem' = false.
Proof.
  destruct (preparePathSpec scope "/hello" (JObj helloItem) options
              (getOperationName options)) as [pathItem'|e] eqn:Hp;
    [|vm_compute in Hp; discriminate].
  destruct (path_item_composition scope "/hello" helloItem options
              (getOperationName options) pathItem' Hp) as (Hkeys & _).
  exists pathItem'. split; [reflexivity|]. rewrite !Hkeys. split; reflexivity.
Defined.

Lemma responses_are_rewritten_in_place_witness :
  exists operation' responses',
    applyMethodIntegration scope "/hello" "get" options (JObj sayHello)
      (getOperationName options) = Ok operation'
    /\ field "responses" operation' = Some (JObj responses')
    /\ obj_in "200" responses' = true
    /\ obj_in "404" responses' = false.
Proof.
  destruct (applyMethodIntegration scope "/hello" "get" options (JObj sayHello)
              (getOperationName options)) as [operation'|e] eqn:Ha;
    [|vm_compute in Ha; discriminate].
  destruct (@responses_are_rewritten_in_place handles collaborators
              scope "/hello" "get" options (JObj sayHello) (getOperationName options)
              operation' hello_responses security_fragment_responses Ha eq_refl)
    as (responses' & Hr & Hkeys & _).
  exists operation', responses'. split; [reflexivity|]. split; [exact Hr|].
  rewrite !Hkeys. split; reflexivity.
Defined.

Lemma security_fragment_integration (a : authorizer_variant) :
  obj_get "x-amazon-apigateway-integration" (security_fragment a) = None.
Proof. now destruct a. Qed.

Lemma operation_is_bound_to_its_labelled_function_witness :
  exists operation',
    applyMethodIntegration scope "/hello" "get" options (JObj sayHello)
      (getOperationName options) = Ok operation'
    /\ at_path ["x-amazon-apigateway-integration"; "uri"] operation'
       = Some (JStr (invocation_uri scope "helloFn"))
    /\ In {| label := "sayHello"; lf_function := "helloFn" |}
          (getLabelledFunctions options).
Proof.
  destruct (applyMethodIntegration scope "/hello" "get" options (JObj sayHello)
              (getOperationName options)) as [operation'|e] eqn:Ha;
    [|vm_compute in Ha; discriminate].
  destruct (@operation_is_bound_to_its_labelled_function handles collaborators
              scope "/hello" "get" options (JObj sayHello) (getOperationName options)
              operation' security_fragment_integration Ha)
    as (uri & Hfield & Hown & _).
  destruct (Hown hello_integration eq_refl) as [-> Hin].
  exists operation'. split; [reflexivity|]. split; [|exact Hin].
  cbn [at_path]. rewrite Hfield. reflexivity.
Defined.

Lemma header_merge_is_idempotent_witness :
  exists response' response'',
    rewriteResponse (Some any_origin) ("200", hello_response) = Ok ("200", response')
    /\ rewriteResponse (Some any_origin) ("200", response') = Ok ("200", response'').
Proof.
  destruct (rewriteResponse (Some any_origin) ("200", hello_response))
    as [[statusCode' response']|e] eqn:Hr; [|vm_compute in Hr; discriminate].
  destruct (header_merge_is_idempotent (Some any_origin) "200" hello_response
              statusCode' response' Hr) as (response'' & _ & _ & Hagain & _).
  assert (Hcode : statusCode' = "200")
    by (apply rewriteResponse_key in Hr; exact Hr).
  subst statusCode'. exists response', response''. split; [reflexivity|exact Hagain].
Defined.

Lemma response_parameters_are_prefixed_headers_witness :
  obj_get "gatewayresponse.header.Access-Control-Allow-Origin"
          (generateCorsResponseParameters any_origin "gatewayresponse.header")
  = Some "'*'".
Proof.
  exact (proj1 (response_parameters_are_prefixed_headers any_origin
                  "gatewayresponse.header") "Access-Control-Allow-Origin").
Defined.

Lemma reverse_index_lookup_witness :
  getOperationName options get_hello = Some "sayHello".
Proof.
  apply (proj2 (proj2 (reverse_index_lookup options get_hello))).
  - simpl. left. reflexivity.
  - intros id' mp' Hin _. simpl in Hin. destruct Hin as [[= <- _] | []]. reflexivity.
Defined.

Lemma first_failure_is_reported_witness :
  exists before m after,
    filter (fun m => truthy (js_prop helloItem m)) HttpMethods
      = (before ++ m :: after)%list
    /\ applyMethodIntegration scope "/hello" m no_integrations (js_prop helloItem m)
         (getOperationName no_integrations)
       = Throw (Error "Missing required integration for operation sayHello (get /hello)").
Proof.
  assert (Hthrow :
            preparePathSpec scope "/hello" (JObj helloItem) no_integrations
              (getOperationName no_integrations)
            = Throw (Error "Missing required integration for operation sayHello (get /hello)"))
    by reflexivity.
  destruct (proj1 (proj1 first_failure_is_reported scope "/hello" helloItem
                     no_integrations (getOperationName no_integrations) _)
              Hthrow) as (before & m & after & Hl & _ & Hm).
  exists before, m, after. split; [exact Hl|exact Hm].
Defined.

Lemma recomposition_needs_options_integration_witness :
  exists pathItem' e,
    preparePathSpec scope "/hello" (JObj helloItem) options
      (getOperationName options) = Ok pathItem'
    /\ preparePathSpec scope "/hello" (JObj pathItem') options
         (getOperationName options) = Throw e.
Proof.
  destruct (preparePathSpec scope "/hello" (JObj helloItem) options
              (getOperationName options)) as [pathItem'|e] eqn:Hp;
    [|vm_compute in Hp; discriminate].
  destruct (recomposition_needs_options_integration scope "/hello" helloItem options
              (getOperationName options) any_origin pathItem' eq_refl eq_refl Hp eq_refl)
    as (e & He).
  exists pathItem', e. split; [reflexivity|exact He].
Defined.

Lemma sample_source_files_witness :
  exists files,
    sampleSourceFiles "sample/src" shop = Ok files
    /\ obj_get "config.json" files
         = Some (stringify_sample (JObj [("applicationName", JStr "Shop")]))
    /\ obj_get "App.tsx" files = Some "// sample/src/App.tsx".
Proof.
  destruct (sampleSourceFiles "sample/src" shop) as [files|e] eqn:Hs;
    [|vm_compute in Hs; discriminate].
  destruct (@sample_source_files disk "sample/src" shop ["App.tsx"; "config.json"] files
              eq_refl Hs) as (Hconfig & Hlisted & _).
  exists files. split; [reflexivity|]. split; [exact Hconfig|].
  destruct (Hlisted "App.tsx") as (content & Hread & Hget);
    [discriminate|simpl; left; reflexivity|].
  injection Hread as <-. exact Hget.
Defined.

Lemma index_html_title_witness :
  sampleIndexHtml "sample/public" shop = Ok "<head><title>Shop</title></head>".
Proof.
  destruct (@index_html_title disk "sample/public" shop "<head><title></title></head>" eq_refl)
    as (Hfound & _).
  destruct (Hfound "<head>" "</head>" eq_refl) as (Hplain & _).
  - intros b1 c b2 Hb.
    repeat (destruct b1 as [|? b1];
            [injection Hb as <- <-; reflexivity|injection Hb as _ Hb]).
    destruct b1; discriminate Hb.
  - exact (Hplain eq_refl).
Defined.
